(** * FixedLengthList: a list with a fixed maximum number of elements

    Shallow embedding of [src/FixedLengthList.hpp]: a singly linked list of
    used slots (with head and tail pointers) and a stack of free slots, both
    threaded through one array [m_items] of [queueMax] slots.

    - A pointer [FixedLengthListItem<T>*] is [ptr]: [None] is [NULL] and
      [Some i] is [&m_items[i]].
    - A member function is a computation in the monad [M]: it reads and
      writes the object, and it has no result ([None]) where the C++ has
      none: a dereference of [NULL] or of a pointer outside [m_items], or a
      loop that does not end.
    - [size_t] is a [Z] wrapped modulo [SIZE_MAX + 1]. *)

From Stdlib Require Import ZArith Lia.
From stdpp Require Import list.

Local Open Scope Z_scope.

(** ** Data model *)

Abbreviation ptr := (option nat).

Section FixedLengthList.

Context {T : Type} `{EqDecision T}.

(** The template parameter [queueMax] and the largest [size_t]. *)
Variable queueMax : nat.
Variable SIZE_MAX : Z.

Record FixedLengthListItem : Type := mkItem {
  m_forward : ptr;
  m_item : T
}.

Record FixedLengthList : Type := mkList {
  m_items : list FixedLengthListItem;
  m_freeHead : ptr;
  m_usedHead : ptr;
  m_usedTail : ptr;
  m_usedCount : Z
}.

(** The iterator holds one pointer into the used list; the field is
    [m_item] in the source, a name the list item already has here. *)
Record FixedLengthListIter : Type := mkIter {
  iter_m_item : ptr
}.

#[global] Instance item_eq_dec : EqDecision FixedLengthListItem.
Proof. solve_decision. Defined.

Definition size_wrap (z : Z) : Z := z mod (SIZE_MAX + 1).

(** ** The monad of member functions *)

Definition M (A : Type) : Type :=
  FixedLengthList -> option (A * FixedLengthList).

#[global] Instance M_ret : MRet M := fun A a l => Some (a, l).
#[global] Instance M_bind : MBind M := fun A B f m l =>
  match m l with
  | Some (a, l') => f a l'
  | None => None
  end.

(** No result: undefined behaviour, or a loop that ran out of [fuel]. *)
Definition undefined {A : Type} : M A := fun _ => None.

Definition get {A : Type} (field : FixedLengthList -> A) : M A :=
  fun l => Some (field l, l).

Definition set_items (v : list FixedLengthListItem) : M unit := fun l =>
  Some (tt, mkList v (m_freeHead l) (m_usedHead l) (m_usedTail l) (m_usedCount l)).
Definition set_freeHead (v : ptr) : M unit := fun l =>
  Some (tt, mkList (m_items l) v (m_usedHead l) (m_usedTail l) (m_usedCount l)).
Definition set_usedHead (v : ptr) : M unit := fun l =>
  Some (tt, mkList (m_items l) (m_freeHead l) v (m_usedTail l) (m_usedCount l)).
Definition set_usedTail (v : ptr) : M unit := fun l =>
  Some (tt, mkList (m_items l) (m_freeHead l) (m_usedHead l) v (m_usedCount l)).
Definition set_usedCount (v : Z) : M unit := fun l =>
  Some (tt, mkList (m_items l) (m_freeHead l) (m_usedHead l) (m_usedTail l) v).

(** [p->m_forward] and [p->m_item], read and written. *)
Definition read_forward (p : ptr) : M ptr := fun l =>
  match p with
  | Some i => match m_items l !! i with
              | Some it => Some (m_forward it, l)
              | None => None
              end
  | None => None
  end.

Definition read_item (p : ptr) : M T := fun l =>
  match p with
  | Some i => match m_items l !! i with
              | Some it => Some (m_item it, l)
              | None => None
              end
  | None => None
  end.

Definition write_forward (p : ptr) (v : ptr) : M unit := fun l =>
  match p with
  | Some i => match m_items l !! i with
              | Some it => set_items (<[i := mkItem v (m_item it)]> (m_items l)) l
              | None => None
              end
  | None => None
  end.

Definition write_item (p : ptr) (v : T) : M unit := fun l =>
  match p with
  | Some i => match m_items l !! i with
              | Some it => set_items (<[i := mkItem (m_forward it) v]> (m_items l)) l
              | None => None
              end
  | None => None
  end.

(** [m_usedCount++] and [m_usedCount--] on a [size_t]. *)
Definition incr_usedCount : M unit :=
  c ← get m_usedCount; set_usedCount (size_wrap (c + 1)).
Definition decr_usedCount : M unit :=
  c ← get m_usedCount; set_usedCount (size_wrap (c - 1)).

(** ** Member functions of FixedLengthList *)

(** The loop of [clear]: [i] counts down from [queueMax - 1], [p] walks up
    the array; the result is the last [p]. *)
Fixpoint clear_loop (i : nat) (p : nat) : M nat :=
  match i with
  | O => mret p
  | S i' =>
      let next := S p in
      write_forward (Some p) (Some next);;
      clear_loop i' next
  end.

Definition clear : M unit :=
  set_usedHead None;;
  set_usedTail None;;
  set_freeHead (Some 0%nat);;
  p ← clear_loop (queueMax - 1) 0;
  write_forward (Some p) None;;
  set_usedCount 0.

(** The default constructor runs [clear] on the storage as it is found:
    the slots hold what they held, the other members are all assigned. *)
Definition FixedLengthList_ctor (storage : list FixedLengthListItem)
  : option FixedLengthList :=
  snd <$> clear (mkList storage None None None 0).

(** First loop of the initialising constructor, [init_count - i] rounds
    left; [src] is what is left of [p_items], read one value a round. *)
Fixpoint ctor_fill (rounds : nat) (i : nat) (src : list T) (prev : ptr)
  : M unit :=
  match rounds with
  | O => mret tt
  | S rounds' =>
      let current := Some i in
      write_forward current None;;
      match src with
      | [] => undefined
      | v :: src' =>
          write_item current v;;
          (match prev with
           | Some _ => write_forward prev current
           | None => set_usedHead current
           end);;
          set_usedTail current;;
          ctor_fill rounds' (S i) src' current
      end
  end.

(** Second loop: the slots from [init_count] on go to the free stack. *)
Fixpoint ctor_free (rounds : nat) (i : nat) (prev : ptr) : M unit :=
  match rounds with
  | O => mret tt
  | S rounds' =>
      let current := Some i in
      write_forward current None;;
      (match prev with
       | Some _ => write_forward prev current
       | None => set_freeHead current
       end);;
      ctor_free rounds' (S i) current
  end.

Definition ctor_init_body (p_items : list T) (p_count : nat) : M unit :=
  let init_count := Nat.min queueMax p_count in
  set_usedHead None;;
  set_usedTail None;;
  ctor_fill init_count 0 p_items None;;
  set_usedCount (Z.of_nat init_count);;
  set_freeHead None;;
  ctor_free (queueMax - init_count) init_count None.

Definition FixedLengthList_ctor_init (storage : list FixedLengthListItem)
  (p_items : list T) (p_count : nat) : option FixedLengthList :=
  snd <$> ctor_init_body p_items p_count (mkList storage None None None 0).

Definition push (p_item : T) : M bool :=
  freeHead ← get m_freeHead;
  match freeHead with
  | Some _ =>
      let new_item := freeHead in
      fwd ← read_forward new_item;
      set_freeHead fwd;;
      usedHead ← get m_usedHead;
      write_forward new_item usedHead;;
      write_item new_item p_item;;
      set_usedHead new_item;;
      usedTail ← get m_usedTail;
      (if decide (usedTail = None) then set_usedTail new_item else mret tt);;
      incr_usedCount;;
      mret true
  | None => mret false
  end.

Definition queue (p_item : T) : M bool :=
  freeHead ← get m_freeHead;
  match freeHead with
  | Some _ =>
      let new_item := freeHead in
      fwd ← read_forward freeHead;
      set_freeHead fwd;;
      write_forward new_item None;;
      write_item new_item p_item;;
      usedTail ← get m_usedTail;
      (match usedTail with
       | Some _ => write_forward usedTail new_item
       | None => mret tt
       end);;
      set_usedTail new_item;;
      usedHead ← get m_usedHead;
      (if decide (usedHead = None) then set_usedHead new_item else mret tt);;
      incr_usedCount;;
      mret true
  | None => mret false
  end.

(** [pop] and [dequeue] take the content of [*p_item] and give back what
    it holds when they return, next to the returned flag. *)
Definition pop (p_item : T) : M (bool * T) :=
  usedHead ← get m_usedHead;
  match usedHead with
  | Some _ =>
      let old_item := usedHead in
      v ← read_item old_item;
      fwd ← read_forward old_item;
      set_usedHead fwd;;
      usedTail ← get m_usedTail;
      (if decide (usedTail = old_item) then set_usedTail None else mret tt);;
      freeHead ← get m_freeHead;
      write_forward old_item freeHead;;
      set_freeHead old_item;;
      decr_usedCount;;
      mret (true, v)
  | None => mret (false, p_item)
  end.

(** The [while] of [remove_node]; a round uses one unit of [fuel]. *)
Fixpoint remove_node_scan (fuel : nat) (p : ptr) (p_item : ptr) : M unit :=
  match p with
  | None => mret tt
  | Some _ =>
      match fuel with
      | O => undefined
      | S fuel' =>
          fwd ← read_forward p;
          if decide (fwd = p_item) then
            write_forward p None;;
            set_usedTail p
          else
            remove_node_scan fuel' fwd p_item
      end
  end.

Definition remove_node (p_item : ptr) : M unit :=
  usedHead ← get m_usedHead;
  (if decide (usedHead = p_item) then
     set_usedHead None;;
     set_usedTail None
   else
     slots ← get (fun l => length (m_items l));
     remove_node_scan slots usedHead p_item);;
  freeHead ← get m_freeHead;
  write_forward p_item freeHead;;
  set_freeHead p_item;;
  decr_usedCount.

Definition dequeue (p_item : T) : M (bool * T) :=
  usedTail ← get m_usedTail;
  match usedTail with
  | Some _ =>
      let old_item := usedTail in
      v ← read_item old_item;
      remove_node old_item;;
      mret (true, v)
  | None => mret (false, p_item)
  end.

(** The branch of [remove] taken at the first slot [p] that matches. *)
Definition remove_unlink (last p : ptr) : M bool :=
  fwd ← read_forward p;
  (match last with
   | None => set_usedHead fwd
   | Some _ => write_forward last fwd
   end);;
  usedTail ← get m_usedTail;
  (if decide (usedTail = p) then set_usedTail last else mret tt);;
  freeHead ← get m_freeHead;
  write_forward p freeHead;;
  set_freeHead p;;
  decr_usedCount;;
  mret true.

Fixpoint remove_loop (fuel : nat) (p_item : T) (last p : ptr) : M bool :=
  match p with
  | None => mret false
  | Some _ =>
      match fuel with
      | O => undefined
      | S fuel' =>
          v ← read_item p;
          if decide (v = p_item) then
            remove_unlink last p
          else
            fwd ← read_forward p;
            remove_loop fuel' p_item p fwd
      end
  end.

Definition remove (p_item : T) : M bool :=
  slots ← get (fun l => length (m_items l));
  usedHead ← get m_usedHead;
  remove_loop slots p_item None usedHead.

Definition used (l : FixedLengthList) : Z := m_usedCount l.

Definition available (l : FixedLengthList) : Z :=
  size_wrap (Z.of_nat queueMax - m_usedCount l).

Fixpoint inList_loop (fuel : nat) (p_val : T) (p : ptr) : M bool :=
  match p with
  | None => mret false
  | Some _ =>
      match fuel with
      | O => undefined
      | S fuel' =>
          v ← read_item p;
          if decide (v = p_val) then mret true
          else
            fwd ← read_forward p;
            inList_loop fuel' p_val fwd
      end
  end.

Definition inList (p_val : T) : M bool :=
  slots ← get (fun l => length (m_items l));
  usedHead ← get m_usedHead;
  inList_loop slots p_val usedHead.

Definition begin_ (l : FixedLengthList) : FixedLengthListIter :=
  mkIter (m_usedHead l).

Definition end_ (l : FixedLengthList) : FixedLengthListIter :=
  mkIter None.

(** ** Member functions of FixedLengthListIter

    An iterator reads the slots of the list it points into, so the list
    is an argument; the iterator after the call is part of the result. *)

Definition FixedLengthListIter_void : FixedLengthListIter := mkIter None.

Definition iter_deref (l : FixedLengthList) (it : FixedLengthListIter)
  : option T :=
  fst <$> read_item (iter_m_item it) l.

(** [operator++(int)]: the returned clone, then the iterator itself. *)
Definition iter_post_inc (l : FixedLengthList) (it : FixedLengthListIter)
  : option (FixedLengthListIter * FixedLengthListIter) :=
  let clone := it in
  match read_forward (iter_m_item it) l with
  | Some (fwd, _) => Some (clone, mkIter fwd)
  | None => None
  end.

(** [operator++()]: the returned reference is the iterator itself. *)
Definition iter_pre_inc (l : FixedLengthList) (it : FixedLengthListIter)
  : option FixedLengthListIter :=
  match read_forward (iter_m_item it) l with
  | Some (fwd, _) => Some (mkIter fwd)
  | None => None
  end.

(** [operator+=]: [p_inc] rounds unless the iterator reaches [NULL]. *)
Fixpoint iter_add_assign (l : FixedLengthList) (p_inc : nat)
  (it : FixedLengthListIter) : option FixedLengthListIter :=
  match p_inc with
  | O => Some it
  | S p_inc' =>
      match iter_m_item it with
      | None => Some it
      | Some _ =>
          match read_forward (iter_m_item it) l with
          | Some (fwd, _) => iter_add_assign l p_inc' (mkIter fwd)
          | None => None
          end
      end
  end.

Definition iter_eq (a b : FixedLengthListIter) : bool :=
  bool_decide (iter_m_item a = iter_m_item b).

Definition iter_ne (a b : FixedLengthListIter) : bool :=
  bool_decide (iter_m_item a <> iter_m_item b).

(** ** Operations the properties are stated with *)

(** [queue] each value of [vs] in order; the returned flags. *)
Fixpoint queue_all (vs : list T) : M (list bool) :=
  match vs with
  | [] => mret []
  | v :: vs' => r ← queue v; rs ← queue_all vs'; mret (r :: rs)
  end.

Fixpoint push_all (vs : list T) : M (list bool) :=
  match vs with
  | [] => mret []
  | v :: vs' => r ← push v; rs ← push_all vs'; mret (r :: rs)
  end.

(** [k] calls of [dequeue] (of [pop]) on one output variable that holds
    [out] at first: the flag and the content of the variable after each. *)
Fixpoint dequeue_n (k : nat) (out : T) : M (list (bool * T)) :=
  match k with
  | O => mret []
  | S k' => r ← dequeue out; rs ← dequeue_n k' (snd r); mret (r :: rs)
  end.

Fixpoint pop_n (k : nat) (out : T) : M (list (bool * T)) :=
  match k with
  | O => mret []
  | S k' => r ← pop out; rs ← pop_n k' (snd r); mret (r :: rs)
  end.

(** A call of one of the mutating member functions. *)
Inductive Op : Type :=
  | OpPush (v : T)
  | OpQueue (v : T)
  | OpPop
  | OpDequeue
  | OpRemove (v : T)
  | OpClear.

(** One call; the output variable of [pop] and [dequeue] is threaded. *)
Definition run_op (o : Op) (out : T) : M T :=
  match o with
  | OpPush v => push v;; mret out
  | OpQueue v => queue v;; mret out
  | OpPop => r ← pop out; mret (snd r)
  | OpDequeue => r ← dequeue out; mret (snd r)
  | OpRemove v => remove v;; mret out
  | OpClear => clear;; mret out
  end.

Fixpoint run_ops (os : list Op) (out : T) : M T :=
  match os with
  | [] => mret out
  | o :: os' => out' ← run_op o out; run_ops os' out'
  end.

(** The loop that starts at [begin()], reads the value under the iterator
    and advances it with [operator++] until it equals [end()]: the values
    read, in order. *)
Fixpoint iterate (fuel : nat) (l : FixedLengthList)
  (it : FixedLengthListIter) : option (list T) :=
  if iter_eq it (end_ l) then Some []
  else
    match fuel with
    | O => None
    | S fuel' =>
        v ← iter_deref l it;
        it' ← iter_pre_inc l it;
        vs ← iterate fuel' l it';
        Some (v :: vs)
    end.

(** ** Representation invariant

    [lseg items p ns q]: following [m_forward] from [p] goes through the
    slots [ns] (index and stored value), in order, and ends on [q]. *)
Fixpoint lseg (items : list FixedLengthListItem) (p : ptr)
  (ns : list (nat * T)) (q : ptr) : Prop :=
  match ns with
  | [] => p = q
  | (n, v) :: ns' =>
      p = Some n /\
      exists f, items !! n = Some (mkItem f v) /\ lseg items f ns' q
  end.

(** [Rep l us fs]: the used list of [l] is the chain [us], its free stack
    the chain [fs], and every slot is in exactly one of the two. *)
Record Rep (l : FixedLengthList) (us fs : list (nat * T)) : Prop := mkRep {
  rep_slots : length (m_items l) = queueMax;
  rep_used : lseg (m_items l) (m_usedHead l) us None;
  rep_free : lseg (m_items l) (m_freeHead l) fs None;
  rep_tail : m_usedTail l = fst <$> last us;
  rep_count : m_usedCount l = Z.of_nat (length us);
  rep_nodup : NoDup ((us ++ fs).*1);
  rep_all : length (us ++ fs) = queueMax
}.

(** The slot before the one the loop of [remove] looks at, once it has
    gone past the slots [xs] with [la] before them. *)
Definition last_ptr (la : ptr) (xs : list (nat * T)) : ptr :=
  match last xs with
  | Some x => Some x.1
  | None => la
  end.

(** ** More of the two classes

    [*it = v]: a store through the reference that [operator*] returns. *)
Definition iter_store (l : FixedLengthList) (it : FixedLengthListIter)
  (v : T) : option FixedLengthList :=
  snd <$> write_item (iter_m_item it) v l.

(** A call of a public member function of the list, and what it returns. *)
Inductive Call : Type :=
  | CallPush (v : T)
  | CallQueue (v : T)
  | CallPop
  | CallDequeue
  | CallRemove (v : T)
  | CallInList (v : T)
  | CallUsed
  | CallAvailable
  | CallClear.

Inductive Answer : Type :=
  | RetBool (b : bool)
  | RetSize (n : Z)
  | RetVoid.

(** One call: the returned value, and the content afterwards of the
    variable whose address [pop] and [dequeue] are given. *)
Definition call (c : Call) (out : T) : M (Answer * T) :=
  match c with
  | CallPush v => r ← push v; mret (RetBool r, out)
  | CallQueue v => r ← queue v; mret (RetBool r, out)
  | CallPop => r ← pop out; mret (RetBool r.1, r.2)
  | CallDequeue => r ← dequeue out; mret (RetBool r.1, r.2)
  | CallRemove v => r ← remove v; mret (RetBool r, out)
  | CallInList v => r ← inList v; mret (RetBool r, out)
  | CallUsed => n ← get used; mret (RetSize n, out)
  | CallAvailable => n ← get available; mret (RetSize n, out)
  | CallClear => clear;; mret (RetVoid, out)
  end.

Fixpoint calls (cs : list Call) (out : T) : M (list (Answer * T)) :=
  match cs with
  | [] => mret []
  | c :: cs' =>
      r ← call c out;
      rs ← calls cs' r.2;
      mret (r :: rs)
  end.

(** ** The sequence a list stands for

    The same calls on the plain sequence of the values from head to tail,
    with a bound of [queueMax] on its length; the object is compared with
    it below. *)
Fixpoint remove_first (v : T) (xs : list T) : list T :=
  match xs with
  | [] => []
  | x :: xs' => if decide (x = v) then xs' else x :: remove_first v xs'
  end.

Definition model_call (c : Call) (out : T) (xs : list T)
  : (Answer * T) * list T :=
  match c with
  | CallPush v =>
      if decide (length xs < queueMax)%nat
      then ((RetBool true, out), v :: xs)
      else ((RetBool false, out), xs)
  | CallQueue v =>
      if decide (length xs < queueMax)%nat
      then ((RetBool true, out), xs ++ [v])
      else ((RetBool false, out), xs)
  | CallPop =>
      match xs with
      | [] => ((RetBool false, out), xs)
      | x :: xs' => ((RetBool true, x), xs')
      end
  | CallDequeue =>
      match reverse xs with
      | [] => ((RetBool false, out), xs)
      | x :: rxs => ((RetBool true, x), reverse rxs)
      end
  | CallRemove v =>
      ((RetBool (bool_decide (v ∈ xs)), out), remove_first v xs)
  | CallInList v => ((RetBool (bool_decide (v ∈ xs)), out), xs)
  | CallUsed => ((RetSize (Z.of_nat (length xs)), out), xs)
  | CallAvailable =>
      ((RetSize (Z.of_nat queueMax - Z.of_nat (length xs)), out), xs)
  | CallClear => ((RetVoid, out), [])
  end.

Fixpoint model_calls (cs : list Call) (out : T) (xs : list T)
  : list (Answer * T) * list T :=
  match cs with
  | [] => ([], xs)
  | c :: cs' =>
      let '(r, xs') := model_call c out xs in
      let '(rs, xs'') := model_calls cs' r.2 xs' in
      (r :: rs, xs'')
  end.

(** ** The CHECKs of the test program

    A [CHECK] of [main] compares what a call on a list returns, or the
    variable [i] that [pop] and [dequeue] were given before, with a
    constant; [run_checks] gives the conditions in order, and [i] at the
    end. *)
#[global] Instance Answer_eq_dec : EqDecision Answer.
Proof. solve_decision. Defined.

Inductive Check : Type :=
  | CheckRet (c : Call) (expected : Answer)
  | CheckI (expected : T).

Fixpoint run_checks (cs : list Check) (i : T) : M (list bool * T) :=
  match cs with
  | [] => mret ([], i)
  | CheckRet c e :: cs' =>
      r ← call c i;
      rest ← run_checks cs' r.2;
      mret (bool_decide (r.1 = e) :: rest.1, rest.2)
  | CheckI e :: cs' =>
      rest ← run_checks cs' i;
      mret (bool_decide (i = e) :: rest.1, rest.2)
  end.

(** The same conditions, of the calls on the sequence. *)
Fixpoint model_checks (cs : list Check) (i : T) (xs : list T)
  : list bool * T :=
  match cs with
  | [] => ([], i)
  | CheckRet c e :: cs' =>
      let '(r, xs') := model_call c i xs in
      let rest := model_checks cs' r.2 xs' in
      (bool_decide (r.1 = e) :: rest.1, rest.2)
  | CheckI e :: cs' =>
      let rest := model_checks cs' i xs in
      (bool_decide (i = e) :: rest.1, rest.2)
  end.

(** ** What the members of a list say of each other

    The head and the tail of the used list are [NULL] together, and
    exactly when [m_usedCount] is 0; the free stack is empty exactly when
    [m_usedCount] is [queueMax]; the slot at the tail has no slot behind
    it; the count is in range. *)
Definition well_linked (l : FixedLengthList) : Prop :=
  length (m_items l) = queueMax /\
  0 <= m_usedCount l <= Z.of_nat queueMax /\
  (m_usedHead l = None <-> m_usedCount l = 0) /\
  (m_usedTail l = None <-> m_usedCount l = 0) /\
  (m_freeHead l = None <-> m_usedCount l = Z.of_nat queueMax) /\
  (forall t, m_usedTail l = Some t ->
     exists v, m_items l !! t = Some (mkItem None v)).

(** ** Facts about chains of slots *)

Lemma lseg_frame items items' p ns q :
  (forall n, n ∈ ns.*1 -> items' !! n = items !! n) ->
  lseg items p ns q -> lseg items' p ns q.
Proof.
  revert p. induction ns as [|[n v] ns IH]; intros p Hsame; simpl; [done|].
  intros [-> (f & Hn & Hrest)]. split; [done|]. exists f. split.
  - rewrite Hsame; [done|]. simpl. left.
  - apply IH; [|done]. intros m Hm. apply Hsame. simpl. by right.
Qed.

Lemma lseg_insert items n x p ns q :
  n ∉ ns.*1 -> lseg items p ns q -> lseg (<[n := x]> items) p ns q.
Proof.
  intros Hn. apply lseg_frame. intros m Hm.
  apply list_lookup_insert_ne. intros ->. done.
Qed.

Lemma lseg_app items p xs ys q :
  lseg items p (xs ++ ys) q <->
  exists r, lseg items p xs r /\ lseg items r ys q.
Proof.
  revert p. induction xs as [|[n v] xs IH]; intros p; simpl.
  - split; [intros H; by exists p|]. by intros (r & -> & H).
  - split.
    + intros [-> (f & Hn & Hrest)]. apply IH in Hrest as (r & H1 & H2).
      exists r. split; [|done]. split; [done|]. by exists f.
    + intros (r & [-> (f & Hn & H1)] & H2). split; [done|].
      exists f. split; [done|]. apply IH. by exists r.
Qed.

Lemma lseg_snoc items p xs n v q :
  lseg items p (xs ++ [(n, v)]) q <->
  lseg items p xs (Some n) /\ items !! n = Some (mkItem q v).
Proof.
  rewrite lseg_app. simpl. split.
  - intros (r & H1 & -> & f & Hn & ->). done.
  - intros [H1 Hn]. exists (Some n). split; [done|]. split; [done|].
    by exists q.
Qed.

Lemma lseg_from_null items ns q : lseg items None ns q -> ns = [] /\ q = None.
Proof. destruct ns as [|[n v] ns]; simpl; [done|]. by intros [? _]. Qed.

Lemma lseg_head items f ns s :
  lseg items f ns (Some s) -> exists h, f = Some h /\ h ∈ ns.*1 ++ [s].
Proof.
  destruct ns as [|[n v] ns]; simpl.
  - intros ->. exists s. split; [done|]. left.
  - intros [-> _]. exists n. split; [done|]. left.
Qed.

Lemma lseg_ptr items p xs : lseg items p xs None -> p = fst <$> head xs.
Proof. destruct xs as [|[n v] xs]; simpl; [done|]. by intros [-> _]. Qed.

(** Linking a fresh slot [n] behind the last slot [t] of a chain. *)
Lemma lseg_link items p us t vt n v :
  lseg items p (us ++ [(t, vt)]) None ->
  NoDup (us ++ [(t, vt)]).*1 -> n ∉ (us ++ [(t, vt)]).*1 ->
  (n < length items)%nat ->
  lseg (<[t := mkItem (Some n) vt]> (<[n := mkItem None v]> items)) p
       ((us ++ [(t, vt)]) ++ [(n, v)]) None.
Proof.
  intros [Hus Ht]%lseg_snoc Hnd Hn Hlt.
  rewrite fmap_app in Hnd, Hn. simpl in *.
  apply NoDup_app in Hnd as (_ & Hdisj & _).
  apply not_elem_of_app in Hn as [Hnus Hnt].
  assert (t <> n) as Htn by (intros ->; apply Hnt; left).
  assert (t ∉ us.*1) as Htus by (intros Hin; apply (Hdisj _ Hin); left).
  pose proof (lookup_lt_Some _ _ _ Ht) as Htlt.
  apply lseg_snoc. split; [apply lseg_snoc; split|].
  - apply lseg_insert; [done|]. by apply lseg_insert.
  - rewrite list_lookup_insert_eq; [done|]. by rewrite length_insert.
  - rewrite list_lookup_insert_ne by done. by rewrite list_lookup_insert_eq.
Qed.

Lemma nodup_middle (us fs : list (nat * T)) n j :
  NoDup (us ++ (n, j) :: fs).*1 ->
  (n ∉ us.*1) /\ (n ∉ fs.*1) /\ NoDup (us ++ fs).*1.
Proof.
  rewrite !fmap_app, fmap_cons. simpl. rewrite <- Permutation_middle.
  rewrite NoDup_cons, not_elem_of_app. tauto.
Qed.

Lemma nodup_head (us fs : list (nat * T)) n j :
  n ∉ (us ++ fs).*1 -> NoDup (us ++ fs).*1 ->
  NoDup (us ++ (n, j) :: fs).*1.
Proof.
  rewrite !fmap_app, fmap_cons. simpl. rewrite <- Permutation_middle.
  rewrite NoDup_cons. tauto.
Qed.

Lemma nodup_snoc (us fs : list (nat * T)) n j v :
  NoDup (us ++ (n, j) :: fs).*1 -> NoDup ((us ++ [(n, v)]) ++ fs).*1.
Proof. by rewrite <- app_assoc, !fmap_app. Qed.

Lemma last_fst_cons (u : nat * T) us t :
  Some t = fst <$> last us -> fst <$> last (u :: us) = Some t.
Proof. destruct us as [|u' us]; [done|]. by rewrite last_cons_cons. Qed.

Lemma last_fst_None (us : list (nat * T)) :
  None = fst <$> last us -> us = [].
Proof. intros H. symmetry in H. by apply fmap_None, last_None in H. Qed.

Lemma last_fst_elem (us : list (nat * T)) t :
  fst <$> last us = Some t -> t ∈ us.*1.
Proof.
  intros ([t' v] & Hl & ->)%fmap_Some.
  apply last_Some_elem_of in Hl. apply list_elem_of_fmap. by exists (t', v).
Qed.

Lemma last_ptr_cons la x xs :
  last_ptr (Some x.1) xs = last_ptr la (x :: xs).
Proof.
  unfold last_ptr. destruct xs as [|y xs]; [done|].
  rewrite last_cons_cons. destruct (last (y :: xs)) eqn:E; [done|].
  by apply last_None in E.
Qed.

Lemma first_match (us : list (nat * T)) v :
  v ∈ us.*2 ->
  exists us1 n us2, us = us1 ++ (n, v) :: us2 /\ v ∉ us1.*2.
Proof.
  induction us as [|[m w] us IH]; simpl.
  - by intros ?%elem_of_nil.
  - destruct (decide (w = v)) as [->|Hne].
    + intros _. exists [], m, us. split; [done|]. apply not_elem_of_nil.
    + intros [?|Hin]%elem_of_cons; [congruence|].
      destruct (IH Hin) as (us1 & n & us2 & -> & Hv).
      exists ((m, w) :: us1), n, us2. split; [done|].
      simpl. apply not_elem_of_cons. split; [congruence|done].
Qed.

(** ** The member functions on a represented list *)

Ltac unfold_M :=
  unfold mbind, M_bind, mret, M_ret, undefined, get, incr_usedCount,
    decr_usedCount, read_forward, read_item, write_forward, write_item,
    set_items, set_freeHead, set_usedHead, set_usedTail, set_usedCount;
  simpl.

Ltac lookup_step :=
  first
    [ rewrite list_lookup_insert_eq by (rewrite ?length_insert; lia)
    | rewrite list_lookup_insert_ne by congruence
    | rewrite list_insert_insert_eq
    | match goal with H : ?items !! ?n = Some _ |- context [?items !! ?n] =>
        rewrite H end ];
  simpl.

Lemma push_full l us v : Rep l us [] -> push v l = Some (false, l).
Proof.
  intros [_ _ Hf _ _ _ _]. destruct l as [items fh uh ut uc]; simpl in *.
  by subst fh.
Qed.

Lemma queue_full l us v : Rep l us [] -> queue v l = Some (false, l).
Proof.
  intros [_ _ Hf _ _ _ _]. destruct l as [items fh uh ut uc]; simpl in *.
  by subst fh.
Qed.

Lemma pop_empty l fs out : Rep l [] fs -> pop out l = Some ((false, out), l).
Proof.
  intros [_ Hu _ _ _ _ _]. destruct l as [items fh uh ut uc]; simpl in *.
  by subst uh.
Qed.

Lemma dequeue_empty l fs out :
  Rep l [] fs -> dequeue out l = Some ((false, out), l).
Proof.
  intros [_ _ _ Ht _ _ _]. destruct l as [items fh uh ut uc]; simpl in *.
  by subst ut.
Qed.

Lemma remove_node_scan_spec fuel l p xs s vs t :
  lseg (m_items l) p xs (Some s) ->
  m_items l !! s = Some (mkItem (Some t) vs) ->
  t ∉ xs.*1 ++ [s] ->
  (length xs < fuel)%nat ->
  remove_node_scan fuel p (Some t) l =
    Some (tt, mkList (<[s := mkItem None vs]> (m_items l)) (m_freeHead l)
                (m_usedHead l) (Some s) (m_usedCount l)).
Proof.
  destruct l as [items fh uh ut uc]; simpl.
  revert p fuel. induction xs as [|[x vx] xs IH]; intros p fuel Hp Hs Ht Hfuel.
  - simpl in Hp. subst p. destruct fuel as [|fuel]; [simpl in Hfuel; lia|].
    simpl. unfold_M. repeat lookup_step.
    rewrite decide_True by done. unfold_M. by repeat lookup_step.
  - destruct Hp as [-> (f & Hx & Hrest)].
    destruct fuel as [|fuel]; [simpl in Hfuel; lia|].
    simpl. unfold_M. repeat lookup_step.
    apply lseg_head in Hrest as Hh. destruct Hh as (h & -> & Hh).
    rewrite decide_False.
    2:{ intros [= ->]. apply Ht. simpl. by right. }
    apply IH; [done|done| |simpl in Hfuel; lia].
    intros Hin. apply Ht. simpl. by right.
Qed.

Lemma remove_loop_absent fuel l p xs v la :
  lseg (m_items l) p xs None -> v ∉ xs.*2 -> (length xs <= fuel)%nat ->
  remove_loop fuel v la p l = Some (false, l).
Proof.
  revert p fuel la.
  induction xs as [|[x vx] xs IH]; intros p fuel la Hp Hv Hfuel.
  - simpl in Hp. subst p. by destruct fuel.
  - destruct Hp as [-> (f & Hx & Hrest)].
    destruct fuel as [|fuel]; [simpl in Hfuel; lia|].
    simpl. unfold_M. repeat lookup_step.
    rewrite decide_False.
    2:{ intros ->. apply Hv. left. }
    repeat lookup_step. apply IH; [done| |simpl in Hfuel; lia].
    intros Hin. apply Hv. by right.
Qed.

Lemma remove_loop_found fuel l p xs n v q la :
  lseg (m_items l) p (xs ++ [(n, v)]) q -> v ∉ xs.*2 ->
  (length xs < fuel)%nat ->
  remove_loop fuel v la p l = remove_unlink (last_ptr la xs) (Some n) l.
Proof.
  revert p fuel la.
  induction xs as [|[x vx] xs IH]; intros p fuel la Hp Hv Hfuel.
  - destruct Hp as [-> (f & Hx & Hrest)].
    destruct fuel as [|fuel]; [simpl in Hfuel; lia|].
    simpl. unfold_M. repeat lookup_step. by rewrite decide_True.
  - destruct Hp as [-> (f & Hx & Hrest)].
    destruct fuel as [|fuel]; [simpl in Hfuel; lia|].
    simpl. unfold mbind at 1, M_bind at 1, read_item at 1. rewrite Hx. simpl.
    rewrite decide_False.
    2:{ intros ->. apply Hv. left. }
    unfold mbind at 1, M_bind at 1, read_forward at 1. rewrite Hx. simpl.
    rewrite (IH f fuel (Some x)); [|done| |simpl in Hfuel; lia].
    + by rewrite <- (last_ptr_cons la (x, vx)).
    + intros Hin. apply Hv. by right.
Qed.

Lemma remove_absent l us fs v :
  Rep l us fs -> v ∉ us.*2 -> remove v l = Some (false, l).
Proof.
  intros [Hlen Hu Hf Ht Hc Hnd Hall] Hv. unfold remove. unfold_M.
  apply remove_loop_absent with us; [done|done|].
  rewrite length_app in Hall. lia.
Qed.

Lemma inList_loop_spec fuel l p xs v :
  lseg (m_items l) p xs None -> (length xs <= fuel)%nat ->
  inList_loop fuel v p l = Some (bool_decide (v ∈ xs.*2), l).
Proof.
  revert p fuel. induction xs as [|[x vx] xs IH]; intros p fuel Hp Hfuel.
  - simpl in Hp. subst p. by destruct fuel.
  - destruct Hp as [-> (f & Hx & Hrest)].
    destruct fuel as [|fuel]; [simpl in Hfuel; lia|].
    simpl. unfold_M. repeat lookup_step.
    destruct (decide (vx = v)) as [->|Hne]; simpl.
    + rewrite bool_decide_eq_true_2; [done|left].
    + repeat lookup_step. rewrite (IH f fuel); [|done|simpl in Hfuel; lia].
      f_equal. f_equal. apply bool_decide_ext. rewrite elem_of_cons.
      split; [tauto|]. intros [?|?]; [congruence|done].
Qed.

Lemma inList_spec l us fs v :
  Rep l us fs -> inList v l = Some (bool_decide (v ∈ us.*2), l).
Proof.
  intros [Hlen Hu Hf Ht Hc Hnd Hall]. unfold inList. unfold_M.
  apply inList_loop_spec; [done|]. rewrite length_app in Hall. lia.
Qed.

Lemma ctor_fill_spec rounds i src prev items fh uh ut uc ns :
  ns.*1 = seq 0 i -> lseg items uh ns None ->
  ut = fst <$> last ns -> prev = ut ->
  (i + rounds <= length items)%nat -> (rounds <= length src)%nat ->
  exists items' uh' ut' ns',
    ctor_fill rounds i src prev (mkList items fh uh ut uc) =
      Some (tt, mkList items' fh uh' ut' uc) /\
    length items' = length items /\
    ns'.*1 = seq 0 (i + rounds) /\
    ns'.*2 = ns.*2 ++ take rounds src /\
    lseg items' uh' ns' None /\
    ut' = fst <$> last ns'.
Proof.
  revert i src prev items uh ut ns.
  induction rounds as [|rounds IH];
    intros i src prev items uh ut ns Hns Hseg Hut Hprev Hlen Hsrc.
  - exists items, uh, ut, ns. simpl. rewrite Nat.add_0_r, app_nil_r. done.
  - destruct src as [|v src]; [simpl in Hsrc; lia|].
    destruct (lookup_lt_is_Some_2 items i) as [[fi vi] Hi]; [lia|].
    pose proof (lookup_lt_Some _ _ _ Hi) as Hilt.
    assert (Hnd : NoDup ns.*1) by (rewrite Hns; apply NoDup_seq).
    assert (Hin : i ∉ ns.*1) by (rewrite Hns, elem_of_seq; lia).
    assert (Hns' : (ns ++ [(i, v)]).*1 = seq 0 (S i)).
    { by rewrite fmap_app, Hns, seq_S. }
    subst prev. simpl. unfold_M. repeat lookup_step.
    destruct ns as [|[t vt] ns _] using rev_ind.
    + simpl in Hseg, Hut. subst uh ut. simpl.
      edestruct (IH (S i) src (Some i)
                   (<[i := mkItem None v]> items) (Some i) (Some i) [(i, v)])
        as (items' & uh' & ut' & ns' & Hrun & Hlen' & Hn1 & Hn2 & Hs & Hl);
        try done.
      { simpl. split; [done|]. exists None. by lookup_step. }
      { rewrite length_insert. lia. }
      { simpl in Hsrc. lia. }
      exists items', uh', ut', ns'. rewrite Hrun.
      rewrite length_insert in Hlen'.
      replace (S i + rounds)%nat with (i + S rounds)%nat in * by lia.
      done.
    + rewrite last_snoc in Hut. simpl in Hut. subst ut.
      pose proof Hseg as [Hseg' Ht]%lseg_snoc.
      assert (t <> i) as Hti.
      { intros ->. apply Hin. rewrite fmap_app. apply elem_of_app. right. left. }
      simpl. repeat lookup_step.
      edestruct (IH (S i) src (Some i)
                   (<[t := mkItem (Some i) vt]> (<[i := mkItem None v]> items))
                   uh (Some i) ((ns ++ [(t, vt)]) ++ [(i, v)]))
        as (items' & uh' & ut' & ns' & Hrun & Hlen' & Hn1 & Hn2 & Hs & Hl);
        try done.
      { by apply lseg_link. }
      { by rewrite last_snoc. }
      { rewrite !length_insert. lia. }
      { simpl in Hsrc. lia. }
      exists items', uh', ut', ns'. rewrite Hrun.
      rewrite !length_insert in Hlen'.
      replace (S i + rounds)%nat with (i + S rounds)%nat in * by lia.
      split; [done|]. split; [done|]. split; [done|]. split; [|done].
      rewrite Hn2. rewrite (fmap_app _ _ [(i, v)]). simpl.
      by rewrite <- app_assoc.
Qed.

Lemma ctor_free_spec rounds i0 i prev items fh uh ut uc ns :
  (i0 <= i)%nat -> ns.*1 = seq i0 (i - i0) -> lseg items fh ns None ->
  prev = fst <$> last ns ->
  (i + rounds <= length items)%nat ->
  exists items' fh' ns',
    ctor_free rounds i prev (mkList items fh uh ut uc) =
      Some (tt, mkList items' fh' uh ut uc) /\
    length items' = length items /\
    ns'.*1 = seq i0 (i - i0 + rounds) /\
    lseg items' fh' ns' None /\
    (forall j, (j < i0)%nat -> items' !! j = items !! j).
Proof.
  revert i prev items fh ns.
  induction rounds as [|rounds IH];
    intros i prev items fh ns Hi0 Hns Hseg Hprev Hlen.
  - exists items, fh, ns. simpl. rewrite Nat.add_0_r. done.
  - destruct (lookup_lt_is_Some_2 items i) as [[fi vi] Hi]; [lia|].
    pose proof (lookup_lt_Some _ _ _ Hi) as Hilt.
    assert (Hnd : NoDup ns.*1) by (rewrite Hns; apply NoDup_seq).
    assert (Hin : i ∉ ns.*1) by (rewrite Hns, elem_of_seq; lia).
    assert (Hns' : (ns ++ [(i, vi)]).*1 = seq i0 (S i - i0)).
    { rewrite fmap_app, Hns. simpl.
      replace (S i - i0)%nat with (S (i - i0)) by lia. rewrite seq_S.
      do 3 f_equal. lia. }
    subst prev. simpl. unfold_M. repeat lookup_step.
    destruct ns as [|[t vt] ns _] using rev_ind.
    + simpl in Hseg. subst fh. simpl.
      edestruct (IH (S i) (Some i)
                   (<[i := mkItem None vi]> items) (Some i) [(i, vi)])
        as (items' & fh' & ns' & Hrun & Hlen' & Hn1 & Hs & Hfr);
        try done.
      { lia. }
      { simpl. split; [done|]. exists None. by lookup_step. }
      { rewrite length_insert. lia. }
      exists items', fh', ns'. rewrite Hrun.
      rewrite length_insert in Hlen'.
      replace (S i - i0 + rounds)%nat with (i - i0 + S rounds)%nat in * by lia.
      split; [done|]. split; [done|]. split; [done|]. split; [done|].
      intros j Hj. rewrite Hfr by done. apply list_lookup_insert_ne. lia.
    + rewrite last_snoc. simpl.
      pose proof Hseg as [Hseg' Ht]%lseg_snoc.
      assert (t <> i) as Hti.
      { intros ->. apply Hin. rewrite fmap_app. apply elem_of_app. right. left. }
      assert (i0 <= t)%nat as Hi0t.
      { assert (t ∈ (ns ++ [(t, vt)]).*1) as Htin.
        { rewrite fmap_app. apply elem_of_app. right. left. }
        rewrite Hns, elem_of_seq in Htin. lia. }
      repeat lookup_step.
      edestruct (IH (S i) (Some i)
                   (<[t := mkItem (Some i) vt]> (<[i := mkItem None vi]> items))
                   fh ((ns ++ [(t, vt)]) ++ [(i, vi)]))
        as (items' & fh' & ns' & Hrun & Hlen' & Hn1 & Hs & Hfr);
        try done.
      { lia. }
      { by apply lseg_link. }
      { by rewrite last_snoc. }
      { rewrite !length_insert. lia. }
      exists items', fh', ns'. rewrite Hrun.
      rewrite !length_insert in Hlen'.
      replace (S i - i0 + rounds)%nat with (i - i0 + S rounds)%nat in * by lia.
      split; [done|]. split; [done|]. split; [done|]. split; [done|].
      intros j Hj. rewrite Hfr by done.
      rewrite !list_lookup_insert_ne by lia. done.
Qed.

Lemma ctor_init_spec storage p_items p_count :
  length storage = queueMax ->
  (Nat.min queueMax p_count <= length p_items)%nat ->
  exists l us fs,
    FixedLengthList_ctor_init storage p_items p_count = Some l /\
    Rep l us fs /\
    us.*2 = take (Nat.min queueMax p_count) p_items /\
    us.*1 = seq 0 (Nat.min queueMax p_count) /\
    fs.*1 = seq (Nat.min queueMax p_count)
                (queueMax - Nat.min queueMax p_count).
Proof.
  intros Hlen Hsrc. set (init_count := Nat.min queueMax p_count) in *.
  unfold FixedLengthList_ctor_init, ctor_init_body.
  fold init_count. unfold_M.
  destruct (ctor_fill_spec init_count 0 p_items None storage None None None 0 [])
    as (items1 & uh & ut & us & Hrun & Hlen1 & Hus1 & Hus2 & Hused & Htail);
    try done.
  { lia. }
  rewrite Hrun. simpl.
  destruct (ctor_free_spec (queueMax - init_count) init_count init_count None
              items1 None uh ut (Z.of_nat init_count) [])
    as (items2 & fh & fs & Hrun2 & Hlen2 & Hfs & Hfree & Hframe);
    try done.
  { by rewrite Nat.sub_diag. }
  { lia. }
  rewrite Hrun2. simpl.
  rewrite Nat.sub_diag in Hfs. simpl in Hus1, Hfs.
  eexists _, us, fs. split; [reflexivity|].
  assert (Hlenus : length us = init_count).
  { by rewrite <- (length_fmap fst), Hus1, length_seq. }
  split; [|done]. split; simpl; try done.
  - lia.
  - apply lseg_frame with items1; [|done].
    intros n Hn. apply Hframe. rewrite Hus1, elem_of_seq in Hn. lia.
  - by rewrite Hlenus.
  - rewrite fmap_app, Hus1, Hfs, <- seq_app. apply NoDup_seq.
  - rewrite <- (length_fmap fst), fmap_app, Hus1, Hfs, <- seq_app, length_seq.
    lia.
Qed.

Lemma used_rep l us fs : Rep l us fs -> used l = Z.of_nat (length us).
Proof. by intros [_ _ _ _ Hc _ _]. Qed.

Lemma used_zero_rep l us fs : Rep l us fs -> used l = 0 -> us = [].
Proof.
  intros HR. rewrite (used_rep _ _ _ HR). destruct us; [done|simpl; lia].
Qed.

Lemma used_full_rep l us fs :
  Rep l us fs -> used l = Z.of_nat queueMax -> fs = [].
Proof.
  intros HR. rewrite (used_rep _ _ _ HR).
  destruct HR as [_ _ _ _ _ _ Hall]. rewrite length_app in Hall.
  destruct fs; [done|simpl in Hall; lia].
Qed.

(** ** Iterators over a represented list *)

Lemma iter_pre_inc_node l n f v :
  m_items l !! n = Some (mkItem f v) ->
  iter_pre_inc l (mkIter (Some n)) = Some (mkIter f).
Proof. intros Hn. unfold iter_pre_inc, read_forward. simpl. by rewrite Hn. Qed.

Lemma iter_post_inc_node l n f v :
  m_items l !! n = Some (mkItem f v) ->
  iter_post_inc l (mkIter (Some n)) = Some (mkIter (Some n), mkIter f).
Proof. intros Hn. unfold iter_post_inc, read_forward. simpl. by rewrite Hn. Qed.

Lemma iter_deref_node l n f v :
  m_items l !! n = Some (mkItem f v) ->
  iter_deref l (mkIter (Some n)) = Some v.
Proof. intros Hn. unfold iter_deref, read_item. simpl. by rewrite Hn. Qed.

(** [operator+=] goes [p_inc] slots down the chain, and stops at its end. *)
Lemma iter_add_assign_chain l p xs p_inc :
  lseg (m_items l) p xs None ->
  iter_add_assign l p_inc (mkIter p) =
    Some (mkIter (fst <$> head (drop p_inc xs))).
Proof.
  revert p xs. induction p_inc as [|k IH]; intros p xs Hseg.
  - simpl. by rewrite (lseg_ptr _ _ _ Hseg).
  - destruct xs as [|[n v] xs]; simpl in *.
    + by subst p.
    + destruct Hseg as [-> (f & Hn & Hrest)]. unfold read_forward.
      rewrite Hn. by apply IH.
Qed.

Lemma iterate_chain fuel l p xs :
  lseg (m_items l) p xs None -> (length xs <= fuel)%nat ->
  iterate fuel l (mkIter p) = Some xs.*2.
Proof.
  revert p fuel. induction xs as [|[n v] xs IH]; intros p fuel Hseg Hfuel.
  - simpl in Hseg. subst p. by destruct fuel.
  - destruct Hseg as [-> (f & Hn & Hrest)].
    destruct fuel as [|fuel]; [simpl in Hfuel; lia|].
    simpl. rewrite (iter_deref_node _ _ _ _ Hn), (iter_pre_inc_node _ _ _ _ Hn).
    simpl. rewrite (IH f fuel); [done|done|simpl in Hfuel; lia].
Qed.

(** On an iterator at a used slot, [*it] is the value of the slot and a
    single step, pre or post, goes to the slot behind it, or to [end()]
    from the tail. *)
Lemma iter_inc_follows_links l us1 n v us2 fs :
  Rep l (us1 ++ (n, v) :: us2) fs ->
  let next := mkIter (fst <$> head us2) in
  iter_deref l (mkIter (Some n)) = Some v /\
  iter_pre_inc l (mkIter (Some n)) = Some next /\
  iter_post_inc l (mkIter (Some n)) = Some (mkIter (Some n), next) /\
  (us2 = [] -> next = end_ l).
Proof.
  intros [_ Hu _ _ _ _ _]. apply lseg_app in Hu as (r & _ & _ & f & Hn & Hu2).
  simpl. rewrite <- (lseg_ptr _ _ _ Hu2).
  split; [by eapply iter_deref_node|]. split; [by eapply iter_pre_inc_node|].
  split; [by eapply iter_post_inc_node|]. intros ->. simpl in Hu2. by subst f.
Qed.

(** ** Properties that hold whatever [queueMax] and [SIZE_MAX] are *)

(** C2: [operator++], pre and post, applied to an iterator that is at
    [end()] reads [m_forward] through the [NULL] it holds and has no
    result, where [operator+=] tests for [NULL] and leaves the iterator
    as it is. *)
Theorem iter_inc_at_end_undefined (l : FixedLengthList) :
  iter_pre_inc l (end_ l) = None /\
  iter_post_inc l (end_ l) = None /\
  forall p_inc, iter_add_assign l p_inc (end_ l) = Some (end_ l).
Proof.
  split; [done|]. split; [done|]. by intros [|p_inc].
Qed.

(** C5: on a list that holds [queueMax] elements [push] and [queue]
    return false and leave the whole object as it was, so [used()] is
    still [queueMax] and [available()] is 0. *)
Theorem full_list_rejects l us fs v :
  Rep l us fs -> used l = Z.of_nat queueMax ->
  push v l = Some (false, l) /\ queue v l = Some (false, l) /\
  used l = Z.of_nat queueMax /\ available l = 0.
Proof.
  intros HR Hfull. pose proof (used_full_rep _ _ _ HR Hfull) as ->.
  split; [by eapply push_full|]. split; [by eapply queue_full|].
  split; [done|]. unfold available, used, size_wrap in *.
  rewrite Hfull, Z.sub_diag. apply Zmod_0_l.
Qed.

(** C6: on an empty list [pop] and [dequeue] return false, leave the
    object as it was and leave the output variable with what it held. *)
Theorem empty_list_rejects l us fs out :
  Rep l us fs -> used l = 0 ->
  pop out l = Some ((false, out), l) /\
  dequeue out l = Some ((false, out), l).
Proof.
  intros HR Hempty. pose proof (used_zero_rep _ _ _ HR Hempty) as ->.
  split; [by eapply pop_empty|by eapply dequeue_empty].
Qed.

(** C7: the initialising constructor, given [K] values, has a result
    (nothing is signalled), the list then holds [min(K, queueMax)]
    elements, and its used list, head to tail and as iteration visits it,
    is the first [queueMax] of the values in the order given. *)
Theorem ctor_init_order storage p_items :
  length storage = queueMax ->
  exists l us fs,
    FixedLengthList_ctor_init storage p_items (length p_items) = Some l /\
    Rep l us fs /\
    used l = Z.of_nat (Nat.min (length p_items) queueMax) /\
    us.*2 = take queueMax p_items /\
    iterate queueMax l (begin_ l) = Some (take queueMax p_items).
Proof.
  intros Hlen.
  destruct (ctor_init_spec storage p_items (length p_items) Hlen)
    as (l & us & fs & Hc & HR & Hvals & Hidx & _); [lia|].
  assert (Htake : take (Nat.min queueMax (length p_items)) p_items
                  = take queueMax p_items).
  { destruct (Nat.min_spec queueMax (length p_items)) as [[_ ->]|[Hle ->]];
      [done|]. by rewrite firstn_all, take_ge. }
  rewrite Htake in Hvals.
  exists l, us, fs. split; [done|]. split; [done|].
  assert (Hlenus : length us = Nat.min (length p_items) queueMax).
  { by rewrite <- (length_fmap fst), Hidx, length_seq, Nat.min_comm. }
  split; [|split; [done|]].
  - by rewrite (used_rep _ _ _ HR), Hlenus.
  - rewrite <- Hvals. destruct HR as [_ Hused _ _ _ _ _].
    apply iterate_chain; [done|]. lia.
Qed.

(** C9: the loop from [begin()] to [end()] has a result and reads the
    values of the used list from head to tail, [used()] of them, and
    [begin() == end()] exactly when [used() == 0]. *)
Theorem iterate_visits_used l us fs fuel :
  Rep l us fs -> used l <= Z.of_nat fuel ->
  iterate fuel l (begin_ l) = Some us.*2 /\
  Z.of_nat (length us.*2) = used l /\
  (iter_eq (begin_ l) (end_ l) = true <-> used l = 0).
Proof.
  intros HR Hfuel. rewrite (used_rep _ _ _ HR) in *.
  destruct HR as [_ Hused _ _ _ _ _].
  split; [apply iterate_chain; [done|lia]|].
  split; [by rewrite length_fmap|].
  unfold iter_eq, begin_, end_. simpl. rewrite bool_decide_eq_true.
  destruct us as [|[n v] us]; simpl in *.
  - by subst.
  - destruct Hused as [-> _]. split; [done|lia].
Qed.

(** C10: the iterator of the void constructor equals [end()] of every
    list, and differs from [begin()] of a list that is not empty. *)
Theorem void_iterator_is_end l :
  iter_eq FixedLengthListIter_void (end_ l) = true /\
  iter_ne FixedLengthListIter_void (end_ l) = false /\
  (forall us fs, Rep l us fs -> 0 < used l ->
     iter_ne FixedLengthListIter_void (begin_ l) = true /\
     iter_eq FixedLengthListIter_void (begin_ l) = false).
Proof.
  split; [done|]. split; [done|]. intros us fs HR Hused.
  rewrite (used_rep _ _ _ HR) in Hused. destruct HR as [_ Hu _ _ _ _ _].
  destruct us as [|[n v] us]; [simpl in Hused; lia|].
  destruct Hu as [Hh _]. unfold iter_ne, iter_eq, begin_. simpl.
  by rewrite Hh.
Qed.

(** ** More on iterators, [inList] and the initialising constructor *)

Lemma lseg_drop items p us k :
  lseg items p us None ->
  lseg items (fst <$> head (drop k us)) (drop k us) None.
Proof.
  intros Hseg. rewrite <- (take_drop k us) in Hseg.
  apply lseg_app in Hseg as (r & _ & Hr).
  by rewrite <- (lseg_ptr _ _ _ Hr).
Qed.

Lemma lseg_split_at items p us k n v :
  lseg items p us None -> us !! k = Some (n, v) ->
  exists f,
    us = take k us ++ (n, v) :: drop (S k) us /\
    lseg items p (take k us) (Some n) /\
    items !! n = Some (mkItem f v) /\
    lseg items f (drop (S k) us) None.
Proof.
  intros Hseg Hk.
  assert (Hus : us = take k us ++ (n, v) :: drop (S k) us).
  { by rewrite <- (drop_S _ _ _ Hk), take_drop. }
  rewrite Hus in Hseg. apply lseg_app in Hseg as (r & H1 & -> & f & Hn & H2).
  by exists f.
Qed.

(** X1: [inList(v)] is true exactly when [v] is one of the values that
    the loop from [begin()] to [end()] reads, and it changes nothing. *)
Theorem inList_matches_iteration l us fs v :
  Rep l us fs ->
  exists xs,
    iterate queueMax l (begin_ l) = Some xs /\
    inList v l = Some (bool_decide (v ∈ xs), l).
Proof.
  intros HR. exists us.*2. split; [|by eapply inList_spec].
  destruct HR as [_ Hu _ _ _ _ Hall]. apply iterate_chain; [done|].
  rewrite length_app in Hall. lia.
Qed.

(** X2: [begin()] advanced by [k] with [operator+=] is [end()] when
    [k >= used()], and otherwise stands on the [k]-th value from the
    head: [*it] reads it, [it != end()], one more [operator++] (pre or
    post) gives what [begin() += k + 1] gives, and advancing by [j] more
    gives what [begin() += k + j] gives. *)
Theorem iter_walk l us fs k :
  Rep l us fs ->
  exists it,
    iter_add_assign l k (begin_ l) = Some it /\
    (forall j, iter_add_assign l j it = iter_add_assign l (k + j) (begin_ l)) /\
    ((length us <= k)%nat -> it = end_ l) /\
    (forall v, us.*2 !! k = Some v ->
       iter_deref l it = Some v /\
       iter_ne it (end_ l) = true /\
       iter_pre_inc l it = iter_add_assign l (S k) (begin_ l) /\
       iter_post_inc l it =
         (fun it' => (it, it')) <$> iter_add_assign l (S k) (begin_ l)).
Proof.
  intros [_ Hu _ _ _ _ _]. unfold begin_.
  exists (mkIter (fst <$> head (drop k us))).
  split; [by apply iter_add_assign_chain|].
  split; [|split].
  - intros j. rewrite (iter_add_assign_chain _ _ _ _ (lseg_drop _ _ _ k Hu)).
    rewrite (iter_add_assign_chain _ _ us _ Hu). by rewrite drop_drop.
  - intros Hk. by rewrite drop_ge.
  - intros v Hv. rewrite list_lookup_fmap in Hv.
    destruct (us !! k) as [[n v']|] eqn:Hk; [|done]. simpl in Hv.
    injection Hv as ->.
    destruct (lseg_split_at _ _ _ _ _ _ Hu Hk) as (f & _ & _ & Hn & Hrest).
    rewrite (iter_add_assign_chain _ _ us _ Hu).
    rewrite (drop_S _ _ _ Hk). simpl.
    split; [by eapply iter_deref_node|]. split; [done|].
    split.
    + rewrite (iter_pre_inc_node _ _ _ _ Hn). by rewrite (lseg_ptr _ _ _ Hrest).
    + rewrite (iter_post_inc_node _ _ _ _ Hn). by rewrite (lseg_ptr _ _ _ Hrest).
Qed.

(** X3: a store through [*it], with [it] on the [k]-th value, replaces
    that value and nothing else: the same slots are used in the same
    order, [used()] is the same, and iteration reads the old values with
    the [k]-th replaced. *)
Theorem iter_store_replaces l us fs k w :
  Rep l us fs -> (k < length us)%nat ->
  exists it l' us',
    iter_add_assign l k (begin_ l) = Some it /\
    iter_store l it w = Some l' /\
    Rep l' us' fs /\
    us'.*1 = us.*1 /\
    us'.*2 = <[k := w]> us.*2 /\
    used l' = used l /\
    iterate queueMax l' (begin_ l') = Some (<[k := w]> us.*2).
Proof.
  intros HR Hk. pose proof HR as [Hlen Hu Hf Ht Hc Hnd Hall].
  destruct (lookup_lt_is_Some_2 us k Hk) as [[n v] Hn].
  destruct (lseg_split_at _ _ _ _ _ _ Hu Hn) as (f & Hus & H1 & Hi & H2).
  assert (Hdrop : drop k us = (n, v) :: drop (S k) us) by by apply drop_S.
  set (us1 := take k us) in *. set (us2 := drop (S k) us) in *.
  assert (Hlen1 : length us1 = k) by (apply length_take_le; lia).
  clearbody us1 us2. subst us. clear Hn HR.
  exists (mkIter (Some n)).
  exists (mkList (<[n := mkItem f w]> (m_items l)) (m_freeHead l)
            (m_usedHead l) (m_usedTail l) (m_usedCount l)).
  exists (us1 ++ (n, w) :: us2).
  assert (Hnodup := Hnd). rewrite <- app_assoc in Hnodup. simpl in Hnodup.
  apply nodup_middle in Hnodup as (Hn1 & Hn2 & _).
  rewrite fmap_app, not_elem_of_app in Hn2. destruct Hn2 as [Hn2 Hnf].
  assert (Hvals : (us1 ++ (n, w) :: us2).*2
                  = <[k := w]> (us1 ++ (n, v) :: us2).*2).
  { rewrite !fmap_app, !fmap_cons. simpl.
    rewrite <- Hlen1, <- (length_fmap snd us1).
    replace (length us1.*2) with (length us1.*2 + 0)%nat by lia.
    by rewrite insert_app_r. }
  assert (Hused' : lseg (<[n := mkItem f w]> (m_items l)) (m_usedHead l)
                     (us1 ++ (n, w) :: us2) None).
  { apply lseg_app. exists (Some n). split; [by apply lseg_insert|].
    simpl. split; [done|]. exists f. split; [|by apply lseg_insert].
    apply list_lookup_insert_eq. by eapply lookup_lt_Some. }
  split.
  { unfold begin_. rewrite (iter_add_assign_chain _ _ _ _ Hu).
    by rewrite Hdrop. }
  split.
  { unfold iter_store, write_item, set_items. simpl. by rewrite Hi. }
  split; [|split; [|split; [done|split; [done|]]]].
  - split; simpl; try done.
    + by rewrite length_insert.
    + by apply lseg_insert.
    + rewrite Ht, !last_app. simpl.
      destruct us2 as [|u us2]; [done|]. by rewrite !last_cons_cons.
    + by rewrite Hc, !length_app.
    + by rewrite !fmap_app, !fmap_cons in *.
    + by rewrite <- Hall, !length_app.
  - by rewrite !fmap_app.
  - rewrite <- Hvals. apply iterate_chain; [done|].
    rewrite <- Hall, !length_app. simpl. lia.
Qed.

Lemma ctor_fill_short rounds i src prev l :
  (length src < rounds)%nat -> ctor_fill rounds i src prev l = None.
Proof.
  revert i src prev l. induction rounds as [|rounds IH];
    intros i src prev l Hshort; [lia|].
  simpl. unfold mbind, M_bind.
  destruct (write_forward (Some i) None l) as [[[] l1]|]; [|done].
  destruct src as [|v src]; [done|].
  destruct (write_item (Some i) v l1) as [[[] l2]|]; [|done].
  destruct (match prev with
            | Some _ => write_forward prev (Some i)
            | None => set_usedHead (Some i)
            end l2) as [[[] l3]|]; [|done].
  simpl. apply IH. simpl in Hshort. lia.
Qed.

(** X4: the initialising constructor reads [min(queueMax, p_count)]
    values through [p_items]; when the array holds fewer it reads past
    its end and has no defined result. *)
Theorem ctor_init_short_array storage p_items p_count :
  (length p_items < Nat.min queueMax p_count)%nat ->
  FixedLengthList_ctor_init storage p_items p_count = None.
Proof.
  intros Hshort. unfold FixedLengthList_ctor_init, ctor_init_body.
  unfold mbind at 1 2, M_bind at 1 2. simpl.
  unfold mbind at 1, M_bind at 1.
  by rewrite ctor_fill_short.
Qed.

Lemma head_drop_fst (us : list (nat * T)) k :
  fst <$> head (drop k us) = us.*1 !! k.
Proof.
  rewrite list_lookup_fmap. f_equal.
  replace (us !! k) with (drop k us !! 0%nat)
    by (by rewrite lookup_drop, Nat.add_0_r).
  apply head_lookup.
Qed.

(** X11: two iterators reached from [begin()] by [+= j] and [+= k] are
    equal under [operator==] exactly when they stand on the same
    position, all positions from [used()] on being [end()]; and
    [operator!=] says the opposite. *)
Theorem iter_eq_same_position l us fs j k :
  Rep l us fs ->
  exists a b,
    iter_add_assign l j (begin_ l) = Some a /\
    iter_add_assign l k (begin_ l) = Some b /\
    iter_eq a b =
      bool_decide (Nat.min j (length us) = Nat.min k (length us)) /\
    iter_ne a b = negb (iter_eq a b).
Proof.
  intros [_ Hu _ _ _ Hnd _]. unfold begin_.
  rewrite !(iter_add_assign_chain _ _ us _ Hu).
  eexists _, _. split; [done|]. split; [done|].
  unfold iter_eq, iter_ne. simpl. rewrite !head_drop_fst.
  rewrite fmap_app in Hnd. apply NoDup_app in Hnd as (Hnd & _ & _).
  split.
  - apply bool_decide_ext.
    destruct (decide (j < length us)%nat) as [Hj|Hj];
      destruct (decide (k < length us)%nat) as [Hk|Hk].
    + destruct (lookup_lt_is_Some_2 us.*1 j) as [x Hx];
        [by rewrite length_fmap|].
      split.
      * intros Heq. rewrite Hx in Heq. symmetry in Heq.
        pose proof (NoDup_lookup _ _ _ _ Hnd Hx Heq). lia.
      * intros Heq. replace k with j by lia. done.
    + rewrite (lookup_ge_None_2 us.*1 k) by (rewrite length_fmap; lia).
      destruct (lookup_lt_is_Some_2 us.*1 j) as [x Hx];
        [by rewrite length_fmap|].
      rewrite Hx. split; [done|lia].
    + rewrite (lookup_ge_None_2 us.*1 j) by (rewrite length_fmap; lia).
      destruct (lookup_lt_is_Some_2 us.*1 k) as [x Hx];
        [by rewrite length_fmap|].
      rewrite Hx. split; [done|lia].
    + rewrite !lookup_ge_None_2 by (rewrite length_fmap; lia).
      split; [lia|done].
  - apply bool_decide_not.
Qed.

Lemma rep_well_linked l us fs : Rep l us fs -> well_linked l.
Proof.
  intros [Hlen Hu Hf Ht Hc Hnd Hall]. rewrite length_app in Hall.
  unfold well_linked. rewrite Hc, Ht. split; [done|]. split; [lia|].
  split; [|split; [|split]].
  - destruct us as [|[n v] us]; simpl in *; [by subst|].
    destruct Hu as [-> _]. split; [done|lia].
  - destruct us as [|u us _] using rev_ind; [done|].
    rewrite last_snoc, length_app. simpl. split; [done|lia].
  - destruct fs as [|[n v] fs]; simpl in *.
    + split; [lia|done].
    + destruct Hf as [-> _]. split; [done|lia].
  - intros t Hlast. destruct us as [|[t' v] us _] using rev_ind; [done|].
    rewrite last_snoc in Hlast. simpl in Hlast. injection Hlast as ->.
    apply lseg_snoc in Hu as [_ Hu]. by exists v.
Qed.

(** ** Insertion and removal

    [m_usedCount] does not wrap when [queueMax], a [size_t], is at most
    [SIZE_MAX]. *)

Section SizeT.

Hypothesis queueMax_size_t : Z.of_nat queueMax <= SIZE_MAX.

Lemma size_wrap_small z : 0 <= z <= SIZE_MAX -> size_wrap z = z.
Proof. intros Hz. unfold size_wrap. apply Z.mod_small. lia. Qed.

Ltac count_arith :=
  rewrite ?length_app in *; cbn [length] in *;
  rewrite ?size_wrap_small; lia.

Lemma push_spec l us n j fs v :
  Rep l us ((n, j) :: fs) ->
  exists l', push v l = Some (true, l') /\ Rep l' ((n, v) :: us) fs.
Proof.
  intros [Hlen Hu Hf Ht Hc Hnd Hall].
  destruct l as [items fh uh ut uc]; simpl in *. subst uc.
  destruct Hf as [-> (f & Hn & Hf)].
  pose proof (lookup_lt_Some _ _ _ Hn) as Hlt.
  apply nodup_middle in Hnd as (Hnu & Hnf & Hnd).
  rewrite length_app in Hall. simpl in Hall.
  unfold push. destruct ut as [t|]; unfold_M; repeat lookup_step.
  all: eexists; (split; [reflexivity|]); split; simpl.
  all: try (by rewrite length_insert).
  all: try (by apply lseg_insert).
  all: try count_arith.
  all: try (constructor; [by rewrite fmap_app, not_elem_of_app|done]).
  all: try (split; [done|]; exists uh; split; [by lookup_step|];
            by apply lseg_insert).
  - symmetry. by apply last_fst_cons.
  - by rewrite (last_fst_None us).
Qed.

Lemma pop_spec l n v us fs out :
  Rep l ((n, v) :: us) fs ->
  exists l', pop out l = Some ((true, v), l') /\ Rep l' us ((n, v) :: fs).
Proof.
  intros [Hlen Hu Hf Ht Hc Hnd Hall].
  destruct l as [items fh uh ut uc]; simpl in *. subst uc.
  destruct Hu as [-> (f & Hn & Hu)].
  pose proof (lookup_lt_Some _ _ _ Hn) as Hlt.
  apply NoDup_cons in Hnd as [Hnn Hnd].
  pose proof Hnn as Hnn'. rewrite fmap_app, not_elem_of_app in Hnn'.
  destruct Hnn' as [Hnu Hnf].
  unfold pop. unfold_M. repeat lookup_step.
  assert (Hus : us = [] /\ ut = Some n \/ ut <> Some n /\ ut = fst <$> last us).
  { destruct us as [|u us]; [by left|right].
    rewrite last_cons_cons in Ht. split; [|done].
    intros Heq. rewrite Heq in Ht. symmetry in Ht.
    by apply last_fst_elem in Ht. }
  destruct (decide (ut = Some n)) as [Hut|Hut]; simpl; repeat lookup_step.
  all: eexists; (split; [reflexivity|]); split; simpl.
  all: try (by rewrite length_insert).
  all: try (by apply lseg_insert).
  all: try count_arith.
  all: try (by apply nodup_head).
  all: try (split; [done|]; exists fh; split; [by lookup_step|];
            by apply lseg_insert).
  - destruct Hus as [[-> _]|[Hx _]]; [done|]. by elim Hx.
  - destruct Hus as [[_ Hx]|[_ ?]]; [by elim Hut|done].
Qed.

Lemma queue_spec l us n j fs v :
  Rep l us ((n, j) :: fs) ->
  exists l', queue v l = Some (true, l') /\ Rep l' (us ++ [(n, v)]) fs.
Proof.
  intros [Hlen Hu Hf Ht Hc Hnd Hall].
  destruct l as [items fh uh ut uc]; simpl in *. subst uc.
  destruct Hf as [-> (f & Hn & Hf)].
  pose proof (lookup_lt_Some _ _ _ Hn) as Hlt.
  pose proof Hnd as Hnd0.
  apply nodup_middle in Hnd as (Hnu & Hnf & Hnd).
  unfold queue.
  destruct us as [|[t vt] us _] using rev_ind.
  - simpl in *. subst uh ut. unfold_M. repeat lookup_step.
    eexists; (split; [reflexivity|]); split; simpl.
    all: try done.
    all: try (by rewrite length_insert).
    all: try (by apply lseg_insert).
    all: try count_arith.
    + split; [done|]. exists None. by lookup_step.
  - rewrite last_snoc in Ht. simpl in Ht. subst ut.
    pose proof Hu as [Hus Htl]%lseg_snoc.
    destruct uh as [h|]; [|by apply lseg_from_null in Hus as [_ ?]].
    assert (t <> n) as Htn.
    { intros ->. apply Hnu. rewrite fmap_app. apply elem_of_app. right. left. }
    unfold_M. repeat lookup_step.
    eexists; (split; [reflexivity|]); split; simpl.
    all: try done.
    all: try (by rewrite !length_insert).
    all: try count_arith.
    + apply lseg_link; try done.
      rewrite fmap_app in Hnd. by apply NoDup_app in Hnd as (? & _ & _).
    + apply lseg_insert; [|by apply lseg_insert].
      rewrite fmap_app in Hnd. apply NoDup_app in Hnd as (_ & Hdisj & _).
      apply Hdisj. rewrite fmap_app. apply elem_of_app. right. left.
    + by rewrite last_snoc.
    + by apply nodup_snoc with j.
Qed.

Lemma dequeue_spec l us t v fs out :
  Rep l (us ++ [(t, v)]) fs ->
  exists l', dequeue out l = Some ((true, v), l') /\ Rep l' us ((t, v) :: fs).
Proof.
  intros [Hlen Hu Hf Ht Hc Hnd Hall].
  destruct l as [items fh uh ut uc]; simpl in *. subst uc.
  rewrite last_snoc in Ht. simpl in Ht. subst ut.
  pose proof Hu as [Hus Htl]%lseg_snoc.
  pose proof (lookup_lt_Some _ _ _ Htl) as Hlt.
  rewrite <- app_assoc in Hnd. simpl in Hnd.
  apply nodup_middle in Hnd as Hnd'. destruct Hnd' as (Htu & Htf & Hnd').
  unfold dequeue, remove_node. unfold_M. repeat lookup_step.
  destruct us as [|[s vs] us _] using rev_ind.
  - simpl in Hus. subst uh. rewrite decide_True by done.
    unfold_M. repeat lookup_step.
    eexists; (split; [reflexivity|]); split; simpl.
    all: try done.
    all: try (by rewrite !length_insert).
    all: try (by apply lseg_insert).
    all: try count_arith.
    + split; [done|]. exists fh. split; [by lookup_step|].
      by apply lseg_insert.
  - pose proof Hus as [Hus' Hsl]%lseg_snoc.
    assert (uh <> Some t) as Hne.
    { apply lseg_head in Hus' as (h & -> & Hh). intros [= ->].
      apply Htu. by rewrite fmap_app. }
    rewrite decide_False by done.
    rewrite (remove_node_scan_spec _ _ _ us s vs t); simpl; try done.
    2:{ rewrite fmap_app in Htu. done. }
    2:{ rewrite !length_app in Hall. simpl in Hall. lia. }
    assert (s <> t) as Hst.
    { intros ->. apply Htu. rewrite fmap_app. apply elem_of_app. right. left. }
    repeat lookup_step.
    eexists; (split; [reflexivity|]); split; simpl.
    all: try done.
    all: try (by rewrite !length_insert).
    all: try count_arith.
    + assert (Hsu : (s ∉ us.*1) /\ (s ∉ fs.*1)).
      { rewrite <- app_assoc in Hnd'. simpl in Hnd'.
        apply nodup_middle in Hnd'. tauto. }
      rewrite fmap_app, not_elem_of_app in Htu.
      apply lseg_snoc. split.
      * apply lseg_insert; [tauto|]. apply lseg_insert; tauto.
      * rewrite list_lookup_insert_ne by done.
        rewrite list_lookup_insert_eq; [done|]. by eapply lookup_lt_Some.
    + assert (Hsf : s ∉ fs.*1).
      { rewrite <- app_assoc in Hnd'. simpl in Hnd'.
        apply nodup_middle in Hnd'. tauto. }
      split; [done|]. exists fh. split; [by repeat lookup_step|].
      apply lseg_insert; [done|]. by apply lseg_insert.
    + by rewrite last_snoc.
Qed.

Lemma remove_unlink_spec l us1 n v us2 fs :
  Rep l (us1 ++ (n, v) :: us2) fs ->
  exists l', remove_unlink (last_ptr None us1) (Some n) l = Some (true, l') /\
             Rep l' (us1 ++ us2) ((n, v) :: fs).
Proof.
  intros [Hlen Hu Hf Ht Hc Hnd Hall].
  destruct l as [items fh uh ut uc]; simpl in *. subst uc.
  apply lseg_app in Hu as (r & Hu1 & -> & f & Hn & Hu2).
  pose proof (lookup_lt_Some _ _ _ Hn) as Hlt.
  rewrite <- app_assoc in Hnd. simpl in Hnd.
  apply nodup_middle in Hnd as (Hn1 & Hn2 & Hnd).
  rewrite fmap_app, not_elem_of_app in Hn2. destruct Hn2 as [Hn2 Hnf].
  rewrite app_assoc in Hnd.
  assert (Htail : exists ut', ut' = fst <$> last (us1 ++ us2) /\
     (us2 = [] /\ ut = Some n /\ ut' = last_ptr None us1 \/
      ut <> Some n /\ ut' = ut)).
  { eexists; split; [reflexivity|]. destruct us2 as [|u2 us2 _] using rev_ind.
    - left. rewrite last_snoc in Ht. rewrite app_nil_r. unfold last_ptr.
      split; [done|]. split; [done|]. by destruct (last us1).
    - right. rewrite last_app, last_cons, last_snoc in Ht.
      rewrite last_app, last_snoc. split; [|done].
      subst ut. simpl. intros [= Heq]. apply Hn2.
      rewrite fmap_app. apply elem_of_app. right. simpl. rewrite <- Heq. left. }
  destruct Htail as (ut' & Hut' & Hcases).
  assert (Hnd' : NoDup ((us1 ++ us2) ++ (n, v) :: fs).*1).
  { apply nodup_head; [|done]. rewrite !fmap_app, !not_elem_of_app. done. }
  unfold remove_unlink.
  destruct us1 as [|[la vla] us1 _] using rev_ind.
  - simpl in Hu1. subst uh. unfold last_ptr in *. simpl in *.
    unfold_M. repeat lookup_step.
    destruct (decide (ut = Some n)) as [Hut|Hut]; simpl; repeat lookup_step.
    all: eexists; (split; [reflexivity|]); split; simpl.
    all: try done.
    all: try (by rewrite !length_insert).
    all: try (by apply lseg_insert).
    all: try count_arith.
    all: try (split; [done|]; exists fh; split; [by lookup_step|];
              by apply lseg_insert).
    + destruct Hcases as [(_ & _ & <-)|[Hx _]]; [done|by elim Hx].
    + destruct Hcases as [(_ & Hx & _)|[_ <-]]; [by elim Hut|done].
  - unfold last_ptr in *. rewrite last_snoc in *. simpl in Hcases |- *.
    apply lseg_snoc in Hu1 as [Hu1 Hla].
    rewrite fmap_app, not_elem_of_app in Hn1. destruct Hn1 as [Hn1 Hnla].
    assert (la <> n) as Hlan by (intros ->; apply Hnla; left).
    pose proof (lookup_lt_Some _ _ _ Hla) as Hlalt.
    assert (Hla' : (la ∉ us1.*1) /\ (la ∉ us2.*1) /\ (la ∉ fs.*1)).
    { rewrite <- !app_assoc in Hnd. simpl in Hnd.
      apply nodup_middle in Hnd as (? & Hx & _).
      by rewrite fmap_app, not_elem_of_app in Hx. }
    destruct Hla' as (Hla1 & Hla2 & Hlaf).
    set (items' := <[n := mkItem fh v]> (<[la := mkItem f vla]> items)).
    assert (Hused : lseg items' uh ((us1 ++ [(la, vla)]) ++ us2) None).
    { apply lseg_app. exists f. split; [apply lseg_snoc; split|].
      - apply lseg_insert; [done|]. by apply lseg_insert.
      - unfold items'. by repeat lookup_step.
      - apply lseg_insert; [done|]. by apply lseg_insert. }
    assert (Hfree : lseg items' fh fs None).
    { apply lseg_insert; [done|]. by apply lseg_insert. }
    unfold_M. repeat lookup_step.
    destruct (decide (ut = Some n)) as [Hut|Hut]; simpl; repeat lookup_step.
    all: eexists; (split; [reflexivity|]); split; simpl.
    all: try done.
    all: try (by rewrite !length_insert).
    all: try count_arith.
    all: try (split; [done|]; exists fh; split; [by repeat lookup_step|done]).
    + destruct Hcases as [(_ & _ & <-)|[Hx _]]; [done|by elim Hx].
    + destruct Hcases as [(_ & Hx & _)|[_ <-]]; [by elim Hut|done].
Qed.

Lemma remove_found l us1 n v us2 fs :
  Rep l (us1 ++ (n, v) :: us2) fs -> v ∉ us1.*2 ->
  exists l', remove v l = Some (true, l') /\
             Rep l' (us1 ++ us2) ((n, v) :: fs).
Proof.
  intros HR Hv. destruct (remove_unlink_spec _ _ _ _ _ _ HR) as (l' & Hl' & HR').
  exists l'. split; [|done]. rewrite <- Hl'.
  destruct HR as [Hlen Hu Hf Ht Hc Hnd Hall].
  unfold remove. unfold mbind, M_bind, get. simpl.
  apply lseg_app in Hu as (r & Hu1 & -> & f & Hn & Hu2).
  apply remove_loop_found with (q := f); [by apply lseg_snoc|done|].
  rewrite !length_app in Hall. simpl in Hall. lia.
Qed.

Lemma available_rep l us fs :
  Rep l us fs -> available l = Z.of_nat (length fs).
Proof.
  intros [_ _ _ _ Hc _ Hall]. unfold available. rewrite Hc.
  rewrite length_app in Hall. rewrite size_wrap_small; lia.
Qed.

Lemma used_available_rep l us fs :
  Rep l us fs ->
  used l + available l = Z.of_nat queueMax /\
  0 <= used l <= Z.of_nat queueMax.
Proof.
  intros HR. rewrite (used_rep _ _ _ HR), (available_rep _ _ _ HR).
  destruct HR as [_ _ _ _ _ _ Hall]. rewrite length_app in Hall. lia.
Qed.

Lemma queue_all_spec vs l us fs :
  Rep l us fs -> (length vs <= length fs)%nat ->
  exists l' us' fs',
    queue_all vs l = Some (replicate (length vs) true, l') /\
    Rep l' (us ++ us') fs' /\ us'.*2 = vs.
Proof.
  revert l us fs. induction vs as [|v vs IH]; intros l us fs HR Hlen.
  - exists l, [], fs. by rewrite app_nil_r.
  - destruct fs as [|[n j] fs]; [simpl in Hlen; lia|].
    destruct (queue_spec _ _ _ _ _ v HR) as (l1 & Hq & HR1).
    destruct (IH _ _ _ HR1) as (l2 & us2 & fs2 & Hrun & HR2 & Hvs);
      [simpl in Hlen; lia|].
    exists l2, ((n, v) :: us2), fs2. simpl. unfold mbind, M_bind.
    rewrite Hq, Hrun. rewrite <- app_assoc in HR2.
    split; [done|]. split; [done|]. by f_equal.
Qed.

Lemma push_all_spec vs l us fs :
  Rep l us fs -> (length vs <= length fs)%nat ->
  exists l' us' fs',
    push_all vs l = Some (replicate (length vs) true, l') /\
    Rep l' (us' ++ us) fs' /\ us'.*2 = reverse vs.
Proof.
  revert l us fs. induction vs as [|v vs IH]; intros l us fs HR Hlen.
  - by exists l, [], fs.
  - destruct fs as [|[n j] fs]; [simpl in Hlen; lia|].
    destruct (push_spec _ _ _ _ _ v HR) as (l1 & Hq & HR1).
    destruct (IH _ _ _ HR1) as (l2 & us2 & fs2 & Hrun & HR2 & Hvs);
      [simpl in Hlen; lia|].
    exists l2, (us2 ++ [(n, v)]), fs2. simpl. unfold mbind, M_bind.
    rewrite Hq, Hrun. rewrite <- app_assoc. simpl.
    by rewrite fmap_app, Hvs, reverse_cons.
Qed.

Lemma dequeue_n_spec us' l us fs out :
  Rep l (us ++ us') fs ->
  exists l' fs',
    dequeue_n (length us') out l =
      Some ((fun v => (true, v)) <$> reverse us'.*2, l') /\
    Rep l' us fs'.
Proof.
  revert l fs out. induction us' as [|[n v] us' IH] using rev_ind;
    intros l fs out HR.
  - exists l, fs. by rewrite app_nil_r in HR.
  - rewrite app_assoc in HR.
    destruct (dequeue_spec _ _ _ _ _ out HR) as (l1 & Hd & HR1).
    destruct (IH _ _ v HR1) as (l2 & fs2 & Hrun & HR2).
    exists l2, fs2. rewrite length_app, Nat.add_comm. simpl.
    unfold mbind, M_bind. rewrite Hd. simpl. rewrite Hrun.
    by rewrite fmap_app, reverse_app.
Qed.

Lemma pop_n_spec us' l us fs out :
  Rep l (us' ++ us) fs ->
  exists l' fs',
    pop_n (length us') out l = Some ((fun v => (true, v)) <$> us'.*2, l') /\
    Rep l' us fs'.
Proof.
  revert l fs out. induction us' as [|[n v] us' IH]; intros l fs out HR.
  - by exists l, fs.
  - destruct (pop_spec _ _ _ _ _ out HR) as (l1 & Hd & HR1).
    destruct (IH _ _ v HR1) as (l2 & fs2 & Hrun & HR2).
    exists l2, fs2. simpl. unfold mbind, M_bind. rewrite Hd. simpl.
    by rewrite Hrun.
Qed.

(** C1, as amended: [queue] adds at the back and [dequeue] takes from the
    back, so after [queue(v1)], ..., [queue(vk)] on an empty list
    ([k <= queueMax]) the next [k] calls of [dequeue] all succeed and
    return [vk], ..., [v1], the reverse of the order they were queued in. *)
Theorem queue_dequeue_reverse_order l fs vs out :
  Rep l [] fs -> (length vs <= queueMax)%nat ->
  exists l1 l2 fs',
    queue_all vs l = Some (replicate (length vs) true, l1) /\
    dequeue_n (length vs) out l1 =
      Some ((fun v => (true, v)) <$> reverse vs, l2) /\
    Rep l2 [] fs'.
Proof.
  intros HR Hk.
  destruct (queue_all_spec vs _ _ _ HR) as (l1 & us & fs1 & Hq & HR1 & Hvs).
  { destruct HR as [_ _ _ _ _ _ Hall]. simpl in Hall. lia. }
  destruct (dequeue_n_spec us _ _ _ out HR1) as (l2 & fs2 & Hd & HR2).
  exists l1, l2, fs2. split; [done|]. split; [|done].
  by rewrite <- Hvs, length_fmap.
Qed.

(** C4: on a list with a free slot, [push(v)] then [pop] both succeed,
    [pop] stores [v] and the used list is what it was; more generally
    pushes that fit are popped in the reverse order (LIFO at the front). *)
Theorem push_pop_lifo l us fs out :
  Rep l us fs ->
  (forall v, 0 < available l ->
     exists l1 l2 fs',
       push v l = Some (true, l1) /\
       pop out l1 = Some ((true, v), l2) /\
       Rep l2 us fs') /\
  (forall vs, Z.of_nat (length vs) <= available l ->
     exists l1 l2 fs',
       push_all vs l = Some (replicate (length vs) true, l1) /\
       pop_n (length vs) out l1 =
         Some ((fun v => (true, v)) <$> reverse vs, l2) /\
       Rep l2 us fs').
Proof.
  intros HR. rewrite (available_rep _ _ _ HR). split.
  - intros v Hfree. destruct fs as [|[n j] fs]; [simpl in Hfree; lia|].
    destruct (push_spec _ _ _ _ _ v HR) as (l1 & Hpush & HR1).
    destruct (pop_spec _ _ _ _ _ out HR1) as (l2 & Hpop & HR2).
    by exists l1, l2, ((n, v) :: fs).
  - intros vs Hfit.
    destruct (push_all_spec vs _ _ _ HR) as (l1 & us1 & fs1 & Hp & HR1 & Hvs);
      [lia|].
    destruct (pop_n_spec us1 _ _ _ out HR1) as (l2 & fs2 & Hd & HR2).
    exists l1, l2, fs2. split; [done|]. split; [|done].
    rewrite <- Hvs. rewrite <- (length_reverse vs), <- Hvs, length_fmap. done.
Qed.

(** C8: [remove(v)] takes out the first slot from the head whose value
    is [v], and only that one: it returns true, [used()] is one less, the
    rest of the used list keeps its order, and [inList(v)] afterwards is
    true exactly when [v] occurred again behind it; when no slot holds
    [v] it returns false and the object is as it was. *)
Theorem remove_first_match l us fs v :
  Rep l us fs ->
  (v ∉ us.*2 -> remove v l = Some (false, l)) /\
  (forall us1 n us2,
     us = us1 ++ (n, v) :: us2 -> v ∉ us1.*2 ->
     exists l',
       remove v l = Some (true, l') /\
       Rep l' (us1 ++ us2) ((n, v) :: fs) /\
       used l' = used l - 1 /\
       inList v l' = Some (bool_decide (v ∈ us2.*2), l')).
Proof.
  intros HR. split; [by apply remove_absent with fs|].
  intros us1 n us2 -> Hv.
  destruct (remove_found _ _ _ _ _ _ HR Hv) as (l' & Hrem & HR').
  exists l'. split; [done|]. split; [done|]. split.
  - rewrite (used_rep _ _ _ HR), (used_rep _ _ _ HR'), !length_app. simpl. lia.
  - rewrite (inList_spec _ _ _ v HR'). do 2 f_equal.
    apply bool_decide_ext. rewrite fmap_app, elem_of_app. tauto.
Qed.

(** X5: what goes in at one end comes out at the other in the order it
    went in: on an empty list, values pushed (front) are dequeued (back)
    first in, first out, and so are values queued (back) and popped
    (front); every call succeeds and the list is empty again. *)
Theorem fifo_across_ends l fs vs out :
  Rep l [] fs -> (length vs <= queueMax)%nat ->
  (exists l1 l2 fs',
     push_all vs l = Some (replicate (length vs) true, l1) /\
     dequeue_n (length vs) out l1 = Some ((fun v => (true, v)) <$> vs, l2) /\
     Rep l2 [] fs') /\
  (exists l1 l2 fs',
     queue_all vs l = Some (replicate (length vs) true, l1) /\
     pop_n (length vs) out l1 = Some ((fun v => (true, v)) <$> vs, l2) /\
     Rep l2 [] fs').
Proof.
  intros HR Hk.
  assert (Hfs : (length vs <= length fs)%nat).
  { destruct HR as [_ _ _ _ _ _ Hall]. simpl in Hall. lia. }
  split.
  - destruct (push_all_spec vs _ _ _ HR Hfs) as (l1 & us & fs1 & Hp & HR1 & Hvs).
    rewrite app_nil_r in HR1.
    destruct (dequeue_n_spec us l1 [] fs1 out HR1) as (l2 & fs2 & Hd & HR2).
    exists l1, l2, fs2. split; [done|]. split; [|done].
    rewrite <- (length_reverse vs), <- Hvs, length_fmap, Hd.
    by rewrite Hvs, reverse_involutive.
  - destruct (queue_all_spec vs _ _ _ HR Hfs) as (l1 & us & fs1 & Hp & HR1 & Hvs).
    rewrite <- (app_nil_r us) in HR1. simpl in HR1.
    destruct (pop_n_spec us l1 [] fs1 out HR1) as (l2 & fs2 & Hd & HR2).
    exists l1, l2, fs2. split; [done|]. split; [|done].
    by rewrite <- Hvs, length_fmap.
Qed.

(** X6: [remove(v)] returns what [inList(v)] returned just before it,
    lowers [used()] by one exactly when that is true, and leaves
    [inList(w)] as it was for every other value [w]. *)
Theorem remove_agrees_with_inList l us fs v :
  Rep l us fs ->
  exists b l',
    inList v l = Some (b, l) /\
    remove v l = Some (b, l') /\
    used l' = used l - (if b then 1 else 0) /\
    forall w, w <> v ->
      exists c, inList w l = Some (c, l) /\ inList w l' = Some (c, l').
Proof.
  intros HR. rewrite (inList_spec _ _ _ v HR).
  destruct (decide (v ∈ us.*2)) as [Hin|Hnin].
  - destruct (first_match _ _ Hin) as (us1 & n & us2 & -> & Hv).
    destruct (remove_found _ _ _ _ _ _ HR Hv) as (l' & Hrem & HR').
    exists true, l'. rewrite bool_decide_eq_true_2 by done.
    split; [done|]. split; [done|]. split.
    + rewrite (used_rep _ _ _ HR), (used_rep _ _ _ HR'), !length_app.
      simpl. lia.
    + intros w Hw. rewrite (inList_spec _ _ _ w HR), (inList_spec _ _ _ w HR').
      eexists. split; [done|]. do 2 f_equal. apply bool_decide_ext.
      rewrite !fmap_app, !elem_of_app, fmap_cons, elem_of_cons. simpl.
      split; [tauto|]. intros [?|[?|?]]; [tauto|congruence|tauto].
  - exists false, l. rewrite bool_decide_eq_false_2 by done.
    split; [done|]. split; [by eapply remove_absent|]. split; [lia|].
    intros w _. rewrite (inList_spec _ _ _ w HR). by eexists.
Qed.

(** ** Sequences of calls on a new list

    [clear], and with it the default constructor, relies on the static
    assertion of the class, [queueMax > 0]. *)

Section StaticAssert.

Hypothesis queueMax_pos : (0 < queueMax)%nat.

Lemma clear_loop_spec i p items fh uh ut uc :
  (p + i < length items)%nat ->
  exists items' ns,
    clear_loop i p (mkList items fh uh ut uc) =
      Some ((p + i)%nat, mkList items' fh uh ut uc) /\
    length items' = length items /\
    (forall j, (j < p)%nat -> items' !! j = items !! j) /\
    ns.*1 = seq p i /\
    lseg items' (Some p) ns (Some (p + i)%nat).
Proof.
  revert p items. induction i as [|i IH]; intros p items Hlt.
  - exists items, []. simpl. rewrite Nat.add_0_r. done.
  - destruct (lookup_lt_is_Some_2 items p) as [[fp vp] Hp]; [lia|].
    simpl. unfold_M. repeat lookup_step.
    destruct (IH (S p) (<[p := mkItem (Some (S p)) vp]> items))
      as (items' & ns & Hrun & Hlen & Hframe & Hns & Hseg).
    { rewrite length_insert. lia. }
    exists items', ((p, vp) :: ns). rewrite Hrun.
    rewrite length_insert in Hlen.
    replace (S p + i)%nat with (p + S i)%nat in * by lia.
    split; [done|]. split; [done|]. split; [|split].
    + intros j Hj. rewrite Hframe by lia. by rewrite list_lookup_insert_ne by lia.
    + by rewrite fmap_cons, Hns.
    + simpl. split; [done|]. exists (Some (S p)). split; [|done].
      rewrite Hframe by lia. rewrite list_lookup_insert_eq; [done|lia].
Qed.

Lemma clear_spec l :
  length (m_items l) = queueMax ->
  exists l' fs, clear l = Some (tt, l') /\ Rep l' [] fs /\
                fs.*1 = seq 0 queueMax.
Proof.
  destruct l as [items fh uh ut uc]; simpl. intros Hlen.
  destruct (clear_loop_spec (queueMax - 1) 0 items (Some 0%nat) None None uc)
    as (items' & ns & Hrun & Hlen' & _ & Hns & Hseg); [lia|].
  simpl in Hrun, Hseg.
  destruct (lookup_lt_is_Some_2 items' (queueMax - 1)) as [[fq vq] Hq]; [lia|].
  unfold clear. unfold_M. rewrite Hrun. simpl. repeat lookup_step.
  assert (Hfs : (ns ++ [(queueMax - 1, vq)%nat]).*1 = seq 0 queueMax).
  { rewrite fmap_app, Hns. simpl.
    replace queueMax with (S (queueMax - 1)) at 3 by lia.
    by rewrite seq_S. }
  eexists _, (ns ++ [((queueMax - 1)%nat, vq)]).
  split; [reflexivity|]. split; [|done].
  split; simpl; try done.
  - rewrite length_insert. lia.
  - apply lseg_snoc. split.
    + apply lseg_insert; [|done]. rewrite Hns, elem_of_seq. lia.
    + rewrite list_lookup_insert_eq; [done|lia].
  - rewrite Hfs. apply NoDup_seq.
  - rewrite <- (length_fmap fst), Hfs. apply length_seq.
Qed.

Lemma ctor_spec storage :
  length storage = queueMax ->
  exists l fs, FixedLengthList_ctor storage = Some l /\ Rep l [] fs /\
               fs.*1 = seq 0 queueMax.
Proof.
  intros Hlen. unfold FixedLengthList_ctor.
  destruct (clear_spec (mkList storage None None None 0))
    as (l & fs & -> & HR & Hfs); [done|]. by exists l, fs.
Qed.

(** Every member function keeps the representation, and has a result. *)
Lemma run_op_rep o out l us fs :
  Rep l us fs ->
  exists out' l' us' fs',
    run_op o out l = Some (out', l') /\ Rep l' us' fs'.
Proof.
  intros HR. destruct o as [v|v| | |v|]; simpl; unfold mbind, M_bind, mret, M_ret.
  - destruct fs as [|[n j] fs].
    + rewrite (push_full _ _ _ HR). by eexists _, _, _, _.
    + destruct (push_spec _ _ _ _ _ v HR) as (l' & -> & HR').
      by eexists _, _, _, _.
  - destruct fs as [|[n j] fs].
    + rewrite (queue_full _ _ _ HR). by eexists _, _, _, _.
    + destruct (queue_spec _ _ _ _ _ v HR) as (l' & -> & HR').
      by eexists _, _, _, _.
  - destruct us as [|[n v] us].
    + rewrite (pop_empty _ _ out HR). by eexists _, _, _, _.
    + destruct (pop_spec _ _ _ _ _ out HR) as (l' & -> & HR').
      by eexists _, _, _, _.
  - destruct us as [|[n v] us _] using rev_ind.
    + rewrite (dequeue_empty _ _ out HR). by eexists _, _, _, _.
    + destruct (dequeue_spec _ _ _ _ _ out HR) as (l' & -> & HR').
      by eexists _, _, _, _.
  - destruct (decide (v ∈ us.*2)) as [Hin|Hnin].
    + destruct (first_match _ _ Hin) as (us1 & n & us2 & -> & Hv).
      destruct (remove_found _ _ _ _ _ _ HR Hv) as (l' & -> & HR').
      by eexists _, _, _, _.
    + rewrite (remove_absent _ _ _ _ HR Hnin). by eexists _, _, _, _.
  - destruct (clear_spec l) as (l' & fs' & -> & HR' & _);
      [by destruct HR|]. by eexists _, _, _, _.
Qed.

Lemma run_ops_rep os out l us fs :
  Rep l us fs ->
  exists out' l' us' fs',
    run_ops os out l = Some (out', l') /\ Rep l' us' fs'.
Proof.
  revert out l us fs. induction os as [|o os IH]; intros out l us fs HR.
  - by exists out, l, us, fs.
  - destruct (run_op_rep o out _ _ _ HR) as (out1 & l1 & us1 & fs1 & Hrun & HR1).
    destruct (IH out1 _ _ _ HR1) as (out2 & l2 & us2 & fs2 & Hrun2 & HR2).
    exists out2, l2, us2, fs2. split; [|done].
    simpl. unfold mbind, M_bind. by rewrite Hrun.
Qed.

(** C3: from a freshly constructed list (either constructor) every
    sequence of [push], [queue], [pop], [dequeue], [remove] and [clear]
    has a result, and after it [used() + available() == queueMax] with
    [0 <= used() <= queueMax]. *)
Theorem used_plus_available storage os out :
  length storage = queueMax ->
  (exists l0 out' l',
     FixedLengthList_ctor storage = Some l0 /\
     run_ops os out l0 = Some (out', l') /\
     used l' + available l' = Z.of_nat queueMax /\
     0 <= used l' <= Z.of_nat queueMax) /\
  (forall p_items p_count,
     (Nat.min queueMax p_count <= length p_items)%nat ->
     exists l0 out' l',
       FixedLengthList_ctor_init storage p_items p_count = Some l0 /\
       run_ops os out l0 = Some (out', l') /\
       used l' + available l' = Z.of_nat queueMax /\
       0 <= used l' <= Z.of_nat queueMax).
Proof.
  intros Hlen. split.
  - destruct (ctor_spec storage Hlen) as (l0 & fs & Hc & HR & _).
    destruct (run_ops_rep os out _ _ _ HR) as (out' & l' & us' & fs' & Hrun & HR').
    exists l0, out', l'. split; [done|]. split; [done|].
    by apply used_available_rep with us' fs'.
  - intros p_items p_count Hsrc.
    destruct (ctor_init_spec storage p_items p_count Hlen Hsrc)
      as (l0 & us & fs & Hc & HR & _).
    destruct (run_ops_rep os out _ _ _ HR) as (out' & l' & us' & fs' & Hrun & HR').
    exists l0, out', l'. split; [done|]. split; [done|].
    by apply used_available_rep with us' fs'.
Qed.

Lemma remove_first_absent (v : T) xs : v ∉ xs -> remove_first v xs = xs.
Proof.
  induction xs as [|x xs IH]; [done|]. intros Hv. simpl.
  apply not_elem_of_cons in Hv as [Hne Hv].
  rewrite decide_False by congruence. by rewrite IH.
Qed.

Lemma remove_first_found (v : T) xs1 xs2 :
  v ∉ xs1 -> remove_first v (xs1 ++ v :: xs2) = xs1 ++ xs2.
Proof.
  induction xs1 as [|x xs1 IH]; simpl.
  - intros _. by rewrite decide_True.
  - intros Hv. apply not_elem_of_cons in Hv as [Hne Hv].
    rewrite decide_False by congruence. by rewrite IH.
Qed.

(** On a list that stands for the sequence [xs] a public member function
    has a result, returns what the same call returns on [xs], and leaves
    a list that stands for the sequence the call leaves. *)
Lemma call_model c out l us fs :
  Rep l us fs ->
  exists l' us' fs',
    call c out l = Some ((model_call c out us.*2).1, l') /\
    Rep l' us' fs' /\
    us'.*2 = (model_call c out us.*2).2.
Proof.
  intros HR. pose proof HR as [_ _ _ _ _ _ Hall].
  rewrite length_app in Hall.
  destruct c as [v|v| | |v|v| | |]; simpl; unfold mbind, M_bind, mret, M_ret.
  - rewrite length_fmap. destruct fs as [|[n j] fs].
    + rewrite (push_full _ _ _ HR). simpl in Hall.
      rewrite decide_False by lia. by exists l, us, [].
    + destruct (push_spec _ _ _ _ _ v HR) as (l' & -> & HR').
      simpl in Hall. rewrite decide_True by lia.
      by exists l', ((n, v) :: us), fs.
  - rewrite length_fmap. destruct fs as [|[n j] fs].
    + rewrite (queue_full _ _ _ HR). simpl in Hall.
      rewrite decide_False by lia. by exists l, us, [].
    + destruct (queue_spec _ _ _ _ _ v HR) as (l' & -> & HR').
      simpl in Hall. rewrite decide_True by lia.
      exists l', (us ++ [(n, v)]), fs. by rewrite fmap_app.
  - destruct us as [|[n v] us].
    + rewrite (pop_empty _ _ out HR). by exists l, [], fs.
    + destruct (pop_spec _ _ _ _ _ out HR) as (l' & -> & HR').
      by exists l', us, ((n, v) :: fs).
  - destruct us as [|[n v] us _] using rev_ind.
    + rewrite (dequeue_empty _ _ out HR). by exists l, [], fs.
    + destruct (dequeue_spec _ _ _ _ _ out HR) as (l' & -> & HR').
      rewrite fmap_app, reverse_app. simpl.
      exists l', us, ((n, v) :: fs). by rewrite reverse_involutive.
  - destruct (decide (v ∈ us.*2)) as [Hin|Hnin].
    + destruct (first_match _ _ Hin) as (us1 & n & us2 & -> & Hv).
      destruct (remove_found _ _ _ _ _ _ HR Hv) as (l' & -> & HR').
      rewrite bool_decide_eq_true_2 by done.
      exists l', (us1 ++ us2), ((n, v) :: fs). split; [done|]. split; [done|].
      rewrite !fmap_app, fmap_cons. simpl. by rewrite remove_first_found.
    + rewrite (remove_absent _ _ _ _ HR Hnin).
      rewrite bool_decide_eq_false_2 by done.
      exists l, us, fs. by rewrite remove_first_absent.
  - rewrite (inList_spec _ _ _ v HR). by exists l, us, fs.
  - unfold get. rewrite (used_rep _ _ _ HR), length_fmap. by exists l, us, fs.
  - unfold get. rewrite (available_rep _ _ _ HR), length_fmap.
    exists l, us, fs. split; [|done]. do 4 f_equal. lia.
  - destruct (clear_spec l) as (l' & fs' & -> & HR' & _);
      [by destruct HR|]. by exists l', [], fs'.
Qed.

Lemma calls_model cs out l us fs :
  Rep l us fs ->
  exists l' us' fs',
    calls cs out l = Some ((model_calls cs out us.*2).1, l') /\
    Rep l' us' fs' /\
    us'.*2 = (model_calls cs out us.*2).2.
Proof.
  revert out l us fs. induction cs as [|c cs IH]; intros out l us fs HR.
  - by exists l, us, fs.
  - destruct (call_model c out _ _ _ HR) as (l1 & us1 & fs1 & Hc & HR1 & Hus1).
    simpl. unfold mbind, M_bind. rewrite Hc.
    destruct (model_call c out us.*2) as [r xs1]. simpl in *.
    destruct (IH r.2 _ _ _ HR1) as (l2 & us2 & fs2 & Hcs & HR2 & Hus2).
    rewrite Hcs, Hus1 in *.
    destruct (model_calls cs r.2 xs1) as [rs xs2]. simpl in *.
    by exists l2, us2, fs2.
Qed.

Lemma run_checks_model cs i l us fs :
  Rep l us fs ->
  exists l', run_checks cs i l = Some (model_checks cs i us.*2, l').
Proof.
  revert i l us fs. induction cs as [|[c e|e] cs IH]; intros i l us fs HR.
  - by exists l.
  - destruct (call_model c i _ _ _ HR) as (l1 & us1 & fs1 & Hc & HR1 & Hus1).
    simpl. unfold mbind, M_bind. rewrite Hc.
    destruct (model_call c i us.*2) as [r xs1]. simpl in *.
    destruct (IH r.2 _ _ _ HR1) as (l2 & Hcs). rewrite Hcs, Hus1.
    by exists l2.
  - destruct (IH i _ _ _ HR) as (l2 & Hcs).
    simpl. unfold mbind, M_bind. rewrite Hcs. by exists l2.
Qed.

(** X7: a list that stands for the sequence [xs] answers any sequence of
    calls of its public member functions as [xs] does: every call has a
    result, returns what the same call returns on the sequence, leaves
    in the output variable what it leaves there, and the loop from
    [begin()] to [end()] reads afterwards the sequence that is left. *)
Theorem calls_refine cs out l us fs :
  Rep l us fs ->
  exists l' us' fs',
    calls cs out l = Some ((model_calls cs out us.*2).1, l') /\
    Rep l' us' fs' /\
    us'.*2 = (model_calls cs out us.*2).2 /\
    iterate queueMax l' (begin_ l') = Some (model_calls cs out us.*2).2.
Proof.
  intros HR.
  destruct (calls_model cs out _ _ _ HR) as (l' & us' & fs' & Hcs & HR' & Hus).
  exists l', us', fs'. split; [done|]. split; [done|]. split; [done|].
  rewrite <- Hus. destruct HR' as [_ Hu _ _ _ _ Hall].
  apply iterate_chain; [done|]. rewrite length_app in Hall. lia.
Qed.

(** X8: a list from the default constructor stands for the empty
    sequence and one from the initialising constructor for the first
    [queueMax] values given; any sequence of calls on such a list has a
    result, returns call by call what the sequence gives, and the loop
    from [begin()] to [end()] then reads the sequence that is left. *)
Theorem calls_on_new_list storage cs out :
  length storage = queueMax ->
  (exists l0 l',
     FixedLengthList_ctor storage = Some l0 /\
     calls cs out l0 = Some ((model_calls cs out []).1, l') /\
     iterate queueMax l' (begin_ l') = Some (model_calls cs out []).2) /\
  (forall p_items p_count,
     (Nat.min queueMax p_count <= length p_items)%nat ->
     let xs := take (Nat.min queueMax p_count) p_items in
     exists l0 l',
       FixedLengthList_ctor_init storage p_items p_count = Some l0 /\
       calls cs out l0 = Some ((model_calls cs out xs).1, l') /\
       iterate queueMax l' (begin_ l') = Some (model_calls cs out xs).2).
Proof.
  intros Hlen.
  assert (Hiter : forall l us fs, Rep l us fs ->
            iterate queueMax l (begin_ l) = Some us.*2).
  { intros l us fs [_ Hu _ _ _ _ Hall]. apply iterate_chain; [done|].
    rewrite length_app in Hall. lia. }
  split.
  - destruct (ctor_spec storage Hlen) as (l0 & fs & Hc & HR & _).
    destruct (calls_model cs out _ _ _ HR) as (l' & us' & fs' & Hcs & HR' & Hus).
    exists l0, l'. split; [done|]. split; [done|].
    by rewrite (Hiter _ _ _ HR'), Hus.
  - intros p_items p_count Hsrc xs.
    destruct (ctor_init_spec storage p_items p_count Hlen Hsrc)
      as (l0 & us & fs & Hc & HR & Hvals & _).
    destruct (calls_model cs out _ _ _ HR) as (l' & us' & fs' & Hcs & HR' & Hus).
    exists l0, l'. split; [done|]. rewrite Hvals in *. split; [done|].
    by rewrite (Hiter _ _ _ HR'), Hus.
Qed.

Lemma write_forward_values p v l l' :
  write_forward p v l = Some (tt, l') ->
  m_item <$> m_items l' = m_item <$> m_items l.
Proof.
  unfold write_forward, set_items. destruct p as [i|]; [|done].
  destruct (m_items l !! i) as [it|] eqn:Hi; [|done].
  intros [= <-]. simpl. rewrite list_fmap_insert. simpl.
  apply list_insert_id. by rewrite list_lookup_fmap, Hi.
Qed.

Lemma clear_loop_values i p l r l' :
  clear_loop i p l = Some (r, l') ->
  m_item <$> m_items l' = m_item <$> m_items l.
Proof.
  revert p l. induction i as [|i IH]; intros p l; simpl.
  - by intros [= _ <-].
  - unfold mbind, M_bind.
    destruct (write_forward (Some p) (Some (S p)) l) as [[[] l1]|] eqn:Hw;
      [|done].
    intros Hrest. rewrite (IH _ _ Hrest). by eapply write_forward_values.
Qed.

Lemma clear_values l l' :
  clear l = Some (tt, l') ->
  m_item <$> m_items l' = m_item <$> m_items l.
Proof.
  unfold clear, mbind, M_bind. cbn -[write_forward clear_loop].
  destruct (clear_loop _ _ _) as [[p l1]|] eqn:Hloop; [|done].
  destruct (write_forward (Some p) None l1) as [[[] l2]|] eqn:Hw; [|done].
  intros [= <-]. simpl.
  rewrite (write_forward_values _ _ _ _ Hw).
  by rewrite (clear_loop_values _ _ _ _ _ Hloop).
Qed.

(** X9: [clear] needs nothing of the object but its [queueMax] slots:
    whatever the links and counters hold, it leaves an empty list whose
    free stack is the slots in array order, with the values in the slots
    untouched; [used()] is 0, [available()] is [queueMax], [begin()]
    equals [end()] and [inList] finds nothing. *)
Theorem clear_resets l v :
  length (m_items l) = queueMax ->
  exists l' fs,
    clear l = Some (tt, l') /\
    Rep l' [] fs /\
    fs.*1 = seq 0 queueMax /\
    m_item <$> m_items l' = m_item <$> m_items l /\
    used l' = 0 /\ available l' = Z.of_nat queueMax /\
    iter_eq (begin_ l') (end_ l') = true /\
    inList v l' = Some (false, l').
Proof.
  intros Hlen. destruct (clear_spec l Hlen) as (l' & fs & Hc & HR & Hfs).
  exists l', fs. split; [done|]. split; [done|]. split; [done|].
  split; [by apply clear_values|]. split; [by rewrite (used_rep _ _ _ HR)|].
  split.
  { rewrite (available_rep _ _ _ HR), <- (length_fmap fst), Hfs.
    by rewrite length_seq. }
  split.
  { destruct HR as [_ Hu _ _ _ _ _]. simpl in Hu. unfold iter_eq, begin_.
    simpl. by rewrite Hu. }
  by rewrite (inList_spec _ _ _ v HR).
Qed.

(** X12: the members of a list stay consistent: after either
    constructor and any sequence of calls, [m_usedHead] and [m_usedTail]
    are [NULL] exactly when [m_usedCount] is 0, [m_freeHead] is [NULL]
    exactly when it is [queueMax], the tail slot has a [NULL] forward
    link, and [m_usedCount] is between 0 and [queueMax]. *)
Theorem members_stay_consistent storage cs out :
  length storage = queueMax ->
  (exists l0 rs l',
     FixedLengthList_ctor storage = Some l0 /\
     calls cs out l0 = Some (rs, l') /\ well_linked l') /\
  (forall p_items p_count,
     (Nat.min queueMax p_count <= length p_items)%nat ->
     exists l0 rs l',
       FixedLengthList_ctor_init storage p_items p_count = Some l0 /\
       calls cs out l0 = Some (rs, l') /\ well_linked l').
Proof.
  intros Hlen. split.
  - destruct (ctor_spec storage Hlen) as (l0 & fs & Hc & HR & _).
    destruct (calls_model cs out _ _ _ HR) as (l' & us' & fs' & Hcs & HR' & _).
    eexists l0, _, l'. split; [done|]. split; [done|].
    by eapply rep_well_linked.
  - intros p_items p_count Hsrc.
    destruct (ctor_init_spec storage p_items p_count Hlen Hsrc)
      as (l0 & us & fs & Hc & HR & _).
    destruct (calls_model cs out _ _ _ HR) as (l' & us' & fs' & Hcs & HR' & _).
    eexists l0, _, l'. split; [done|]. split; [done|].
    by eapply rep_well_linked.
Qed.

End StaticAssert.

End SizeT.

End FixedLengthList.

(** * The properties on lists of [int]

    [FixedLengthList<int, 20>], as in the test program, with a 64-bit
    [size_t]; the slots of a new object hold zeroes. *)

Definition SIZE_MAX_64 : Z := 18446744073709551615.

Definition storage (n : nat) : list (@FixedLengthListItem Z) :=
  replicate n (mkItem None 0).

(** What the default constructor makes of [storage 20]. *)
Definition list20 : @FixedLengthList Z :=
  Eval vm_compute in
    default (mkList [] None None None 0) (FixedLengthList_ctor 20 (storage 20)).

Definition free20 : list (nat * Z) := (fun i => (i, 0)) <$> seq 0 20.

(** [init_list] of the test program, and a list built from it. *)
Definition init_list : list Z :=
  [12; 23; 34; 45; 56; 67; 78; 89; 100; 111; 122; 133; 144; 155; 166; 177; 188].

(** A list of three slots that is full, and one of five slots that holds
    the value 1 twice. *)
Definition full3 : @FixedLengthList Z :=
  Eval vm_compute in
    default (mkList [] None None None 0)
      (FixedLengthList_ctor_init 3 (storage 3) [1; 2; 3] 3).

Definition dup5 : @FixedLengthList Z :=
  Eval vm_compute in
    default (mkList [] None None None 0)
      (FixedLengthList_ctor_init 5 (storage 5) [1; 2; 1; 3] 4).

Ltac solve_chain :=
  simpl; repeat (split; [reflexivity|]; eexists; split; [reflexivity|]);
  reflexivity.

Ltac solve_rep :=
  split;
  [ reflexivity | solve_chain | solve_chain | reflexivity | reflexivity
  | apply (bool_decide_unpack _); vm_compute; exact I | reflexivity ].

Lemma list20_ctor : FixedLengthList_ctor 20 (storage 20) = Some list20.
Proof. by vm_compute. Qed.

Lemma list20_rep : Rep 20 list20 [] free20.
Proof. solve_rep. Qed.

Lemma full3_rep :
  Rep 3 full3 [(0%nat, 1); (1%nat, 2); (2%nat, 3)] [].
Proof. solve_rep. Qed.

Lemma dup5_rep :
  Rep 5 dup5 [(0%nat, 1); (1%nat, 2); (2%nat, 1); (3%nat, 3)] [(4%nat, 0)].
Proof. solve_rep. Qed.

Lemma size_max_64_fits n : (n <= 20)%nat -> Z.of_nat n <= SIZE_MAX_64.
Proof. unfold SIZE_MAX_64. lia. Qed.

(** C1 as the specification has it fails: after [queue(22)], [queue(33)],
    [queue(44)] on a new list the three calls of [dequeue] give 44, 33,
    22, not 22, 33, 44. *)
Lemma queue_dequeue_fifo_counterexample :
  exists l1 l2 ds,
    FixedLengthList_ctor 20 (storage 20) = Some list20 /\
    queue_all SIZE_MAX_64 [22; 33; 44] list20 = Some ([true; true; true], l1) /\
    dequeue_n SIZE_MAX_64 3 0 l1 = Some (ds, l2) /\
    ds = [(true, 44); (true, 33); (true, 22)] /\
    ds.*2 <> [22; 33; 44].
Proof.
  do 3 eexists. split; [exact list20_ctor|].
  split; [by vm_compute|]. split; [by vm_compute|]. split; [done|].
  by vm_compute.
Qed.

(** C1, as amended, on the example of the specification. *)
Lemma queue_dequeue_reverse_order_witness :
  exists l1 l2 fs',
    queue_all SIZE_MAX_64 [22; 33; 44] list20 = Some ([true; true; true], l1) /\
    dequeue_n SIZE_MAX_64 3 0 l1 =
      Some ([(true, 44); (true, 33); (true, 22)], l2) /\
    Rep 20 l2 [] fs'.
Proof.
  apply (queue_dequeue_reverse_order 20 SIZE_MAX_64
           (size_max_64_fits 20 (le_n 20))
           list20 free20 [22; 33; 44] 0 list20_rep).
  simpl. lia.
Defined.

(** C3 on a new list of 20 slots, for either constructor. *)
Lemma used_plus_available_witness :
  (exists l0 out' l',
     FixedLengthList_ctor 20 (storage 20) = Some l0 /\
     run_ops 20 SIZE_MAX_64
       [OpPush 1; OpQueue 2; OpPop; OpDequeue; OpDequeue; OpQueue 3;
        OpRemove 3; OpPush 4; OpClear; OpPush 5] 0 l0 = Some (out', l') /\
     used l' + available 20 SIZE_MAX_64 l' = 20 /\
     0 <= used l' <= 20) /\
  (exists l0 out' l',
     FixedLengthList_ctor_init 20 (storage 20) init_list 17 = Some l0 /\
     run_ops 20 SIZE_MAX_64 [OpPop; OpDequeue; OpQueue 199] 0 l0 =
       Some (out', l') /\
     used l' + available 20 SIZE_MAX_64 l' = 20 /\
     0 <= used l' <= 20).
Proof.
  split.
  - destruct (used_plus_available 20 SIZE_MAX_64
                (size_max_64_fits 20 (le_n 20)) (Nat.lt_0_succ 19)
                (storage 20)
                [OpPush 1; OpQueue 2; OpPop; OpDequeue; OpDequeue; OpQueue 3;
                 OpRemove 3; OpPush 4; OpClear; OpPush 5] 0 eq_refl)
      as [Hdefault _].
    exact Hdefault.
  - destruct (used_plus_available 20 SIZE_MAX_64
                (size_max_64_fits 20 (le_n 20)) (Nat.lt_0_succ 19)
                (storage 20) [OpPop; OpDequeue; OpQueue 199] 0 eq_refl)
      as [_ Hinit].
    apply (Hinit init_list 17%nat). simpl. lia.
Defined.

(** C4 on the example of the specification: capacity 20, [push(111)],
    [push(222)], then [pop] gives 222 and 111 and the list is empty. *)
Lemma push_pop_lifo_witness :
  (exists l1 l2 fs',
     push SIZE_MAX_64 111 list20 = Some (true, l1) /\
     pop SIZE_MAX_64 0 l1 = Some ((true, 111), l2) /\
     Rep 20 l2 [] fs') /\
  (exists l1 l2 fs',
     push_all SIZE_MAX_64 [111; 222] list20 = Some ([true; true], l1) /\
     pop_n SIZE_MAX_64 2 0 l1 = Some ([(true, 222); (true, 111)], l2) /\
     Rep 20 l2 [] fs').
Proof.
  destruct (push_pop_lifo 20 SIZE_MAX_64
              (size_max_64_fits 20 (le_n 20))
              list20 [] free20 0 list20_rep) as [Hone Hmany].
  split.
  - apply (Hone 111). by vm_compute.
  - apply (Hmany [111; 222]). by vm_compute.
Defined.

(** C5 on a full list of three slots. *)
Lemma full_list_rejects_witness :
  push SIZE_MAX_64 120 full3 = Some (false, full3) /\
  queue SIZE_MAX_64 120 full3 = Some (false, full3) /\
  used full3 = 3 /\ available 3 SIZE_MAX_64 full3 = 0.
Proof.
  apply (full_list_rejects 3 SIZE_MAX_64 full3 _ _ 120 full3_rep).
  reflexivity.
Defined.

(** C6 on a new list, with 7 in the output variable. *)
Lemma empty_list_rejects_witness :
  pop SIZE_MAX_64 7 list20 = Some ((false, 7), list20) /\
  dequeue SIZE_MAX_64 7 list20 = Some ((false, 7), list20).
Proof.
  apply (empty_list_rejects 20 SIZE_MAX_64 list20 _ _ 7 list20_rep).
  reflexivity.
Defined.

(** C7 on [list2] of the test program (17 values, 20 slots), and on four
    values given to a list of three slots. *)
Lemma ctor_init_order_witness :
  (exists l us fs,
     FixedLengthList_ctor_init 20 (storage 20) init_list 17 = Some l /\
     Rep 20 l us fs /\
     used l = 17 /\
     us.*2 = init_list /\
     iterate 20 l (begin_ l) = Some init_list) /\
  (exists l us fs,
     FixedLengthList_ctor_init 3 (storage 3) [12; 23; 34; 45] 4 = Some l /\
     Rep 3 l us fs /\
     used l = 3 /\
     us.*2 = [12; 23; 34] /\
     iterate 3 l (begin_ l) = Some [12; 23; 34]).
Proof.
  split.
  - apply (ctor_init_order 20 (storage 20) init_list). reflexivity.
  - apply (ctor_init_order 3 (storage 3) [12; 23; 34; 45]). reflexivity.
Defined.

(** C8 on a list that holds 1, 2, 1, 3: [remove(7)] finds nothing,
    [remove(1)] takes the first 1 out and [inList(1)] is still true. *)
Lemma remove_first_match_witness :
  remove SIZE_MAX_64 7 dup5 = Some (false, dup5) /\
  exists l',
    remove SIZE_MAX_64 1 dup5 = Some (true, l') /\
    Rep 5 l' [(1%nat, 2); (2%nat, 1); (3%nat, 3)] [(0%nat, 1); (4%nat, 0)] /\
    used l' = used dup5 - 1 /\
    inList 1 l' = Some (true, l').
Proof.
  split.
  - destruct (remove_first_match (T := Z) 5 SIZE_MAX_64
                (size_max_64_fits 5 (Nat.le_add_l 5 15))
                dup5 _ _ 7 dup5_rep) as [Habsent _].
    apply Habsent. apply (bool_decide_unpack _). by vm_compute.
  - destruct (remove_first_match (T := Z) 5 SIZE_MAX_64
                (size_max_64_fits 5 (Nat.le_add_l 5 15))
                dup5 _ _ 1 dup5_rep) as [_ Hfound].
    apply (Hfound [] 0%nat [(1%nat, 2); (2%nat, 1); (3%nat, 3)] eq_refl).
    apply not_elem_of_nil.
Defined.

(** C9 on the same list. *)
Lemma iterate_visits_used_witness :
  iterate 5 dup5 (begin_ dup5) = Some [1; 2; 1; 3] /\
  4 = used dup5 /\
  (iter_eq (begin_ dup5) (end_ dup5) = true <-> used dup5 = 0).
Proof.
  apply (iterate_visits_used 5 dup5 _ _ 5 dup5_rep).
  by vm_compute.
Defined.

(** C10 on the same list. *)
Lemma void_iterator_is_end_witness :
  iter_eq FixedLengthListIter_void (end_ dup5) = true /\
  iter_ne FixedLengthListIter_void (begin_ dup5) = true.
Proof.
  destruct (void_iterator_is_end 5 dup5) as (He & _ & Hb).
  split; [exact He|].
  apply (Hb _ _ dup5_rep). by vm_compute.
Defined.

(** * The test program

    [check_iterators] and [main] of [FixedLengthListTest.cpp], as the
    conditions of their CHECKs in order. [LIST_LEN] is 20; the lists are
    built on memory that holds anything. *)

Definition check_iterators (stack : list (@FixedLengthListItem Z))
  : option (list bool) :=
  ilist ← FixedLengthList_ctor_init 20 stack init_list 17;
  let it := begin_ ilist in
  v1 ← iter_deref ilist it;
  let c1 := bool_decide (v1 = nth 0 init_list 0) in
  let c2 := iter_eq it (begin_ ilist) in
  let c3 := iter_ne it (end_ ilist) in
  post ← iter_post_inc ilist it;
  let it := post.2 in
  v4 ← iter_deref ilist post.1;
  let c4 := bool_decide (v4 = nth 0 init_list 0) in
  v5 ← iter_deref ilist it;
  let c5 := bool_decide (v5 = nth 1 init_list 0) in
  it ← iter_pre_inc ilist it;
  v6 ← iter_deref ilist it;
  let c6 := bool_decide (v6 = nth 2 init_list 0) in
  v7 ← iter_deref ilist it;
  let c7 := bool_decide (v7 = nth 2 init_list 0) in
  it ← iter_add_assign ilist 15 it;
  let c8 := iter_ne it (begin_ ilist) in
  let c9 := iter_eq it (end_ ilist) in
  Some [c1; c2; c3; c4; c5; c6; c7; c8; c9].

(** The CHECKs of [main] on [list], from its first line to the full list. *)
Definition main_checks_list : list (@Check Z) :=
  [ CheckRet CallUsed (RetSize 0);
    CheckRet (CallInList 1) (RetBool false);
    CheckRet CallAvailable (RetSize 20);
    CheckRet CallPop (RetBool false);
    CheckRet CallDequeue (RetBool false);
    CheckRet (CallPush 1) (RetBool true);
    CheckRet (CallInList 1) (RetBool true);
    CheckRet (CallInList 2) (RetBool false);
    CheckRet CallUsed (RetSize 1);
    CheckRet CallPop (RetBool true);
    CheckI 1;
    CheckRet CallUsed (RetSize 0);
    CheckRet CallPop (RetBool false);
    CheckRet CallDequeue (RetBool false);
    CheckRet (CallPush 22) (RetBool true);
    CheckRet (CallPush 33) (RetBool true);
    CheckRet (CallPush 44) (RetBool true);
    CheckRet CallDequeue (RetBool true);
    CheckI 22;
    CheckRet CallDequeue (RetBool true);
    CheckI 33;
    CheckRet CallDequeue (RetBool true);
    CheckI 44;
    CheckRet CallPop (RetBool false);
    CheckRet CallDequeue (RetBool false);
    CheckRet (CallPush 55) (RetBool true);
    CheckRet (CallPush 66) (RetBool true);
    CheckRet (CallPush 77) (RetBool true);
    CheckRet CallPop (RetBool true);
    CheckI 77;
    CheckRet CallDequeue (RetBool true);
    CheckI 55;
    CheckRet (CallQueue 88) (RetBool true);
    CheckRet CallPop (RetBool true);
    CheckI 66;
    CheckRet CallPop (RetBool true);
    CheckI 88;
    CheckRet CallAvailable (RetSize 20);
    CheckRet CallPop (RetBool false);
    CheckRet CallDequeue (RetBool false);
    CheckRet (CallPush 100) (RetBool true);
    CheckRet (CallPush 101) (RetBool true);
    CheckRet (CallPush 102) (RetBool true);
    CheckRet (CallPush 103) (RetBool true);
    CheckRet (CallPush 104) (RetBool true);
    CheckRet (CallPush 105) (RetBool true);
    CheckRet (CallPush 106) (RetBool true);
    CheckRet (CallPush 107) (RetBool true);
    CheckRet (CallPush 108) (RetBool true);
    CheckRet (CallPush 109) (RetBool true);
    CheckRet (CallPush 110) (RetBool true);
    CheckRet (CallQueue 111) (RetBool true);
    CheckRet (CallQueue 112) (RetBool true);
    CheckRet (CallQueue 113) (RetBool true);
    CheckRet (CallQueue 114) (RetBool true);
    CheckRet (CallQueue 115) (RetBool true);
    CheckRet (CallQueue 116) (RetBool true);
    CheckRet (CallQueue 117) (RetBool true);
    CheckRet (CallQueue 118) (RetBool true);
    CheckRet (CallQueue 119) (RetBool true);
    CheckRet (CallQueue 120) (RetBool false);
    CheckRet (CallPush 120) (RetBool false);
    CheckRet CallAvailable (RetSize 0);
    CheckRet CallUsed (RetSize 20) ].

(** The CHECKs of [main] on [list2], built from [init_list]. *)
Definition main_checks_list2 : list (@Check Z) :=
  [ CheckRet CallAvailable (RetSize 3);
    CheckRet CallUsed (RetSize 17);
    CheckRet CallPop (RetBool true);
    CheckI 12;
    CheckRet CallDequeue (RetBool true);
    CheckI 188;
    CheckRet (CallQueue 199) (RetBool true);
    CheckRet (CallQueue 210) (RetBool true);
    CheckRet (CallQueue 221) (RetBool true);
    CheckRet (CallQueue 232) (RetBool true);
    CheckRet (CallQueue 243) (RetBool true);
    CheckRet (CallQueue 254) (RetBool false) ].

(** [main]: the two lists are constructed, [i] is 0, the CHECKs run on
    [list] and then on [list2], and [check_iterators] is called. *)
Definition test_main (SIZE_MAX : Z)
  (mem_list mem_list2 stack : list (@FixedLengthListItem Z))
  : option (list bool) :=
  list ← FixedLengthList_ctor 20 mem_list;
  list2 ← FixedLengthList_ctor_init 20 mem_list2 init_list 17;
  r1 ← fst <$> run_checks 20 SIZE_MAX main_checks_list 0 list;
  r2 ← fst <$> run_checks 20 SIZE_MAX main_checks_list2 r1.2 list2;
  r3 ← check_iterators stack;
  Some (r1.1 ++ r2.1 ++ r3).

Ltac use_lookups :=
  repeat match goal with
         | H : ?items !! ?n = Some _ |- context [?items !! ?n] =>
             rewrite H; simpl
         end.

Lemma check_iterators_conditions stack :
  length stack = 20%nat -> check_iterators stack = Some (replicate 9 true).
Proof.
  intros Hlen.
  destruct (ctor_init_spec (T := Z) 20 stack init_list 17 Hlen)
    as (l & us & fs & Hc & HR & Hvals & Hidx & _); [simpl; lia|].
  assert (Hus : us = zip us.*1 us.*2) by (symmetry; apply zip_fst_snd).
  rewrite Hvals, Hidx in Hus. vm_compute in Hus. subst us.
  destruct HR as [_ Hu _ _ _ _ _]. simpl in Hu.
  repeat match goal with
         | H : _ /\ _ |- _ => destruct H
         | H : exists _, _ |- _ => destruct H
         end.
  subst. unfold check_iterators. rewrite Hc. simpl.
  unfold begin_, end_, iter_deref, iter_post_inc, iter_pre_inc, iter_eq,
    iter_ne, read_item, read_forward.
  match goal with H : m_usedHead l = _ |- _ => rewrite !H end.
  simpl. use_lookups. reflexivity.
Qed.

(** X10: the test program passes: on memory that holds anything, and
    with any [size_t] that can hold 20, every CHECK of [main] and of
    [check_iterators] has its condition true, all 85 of them. *)
Theorem test_main_passes SIZE_MAX mem_list mem_list2 stack :
  20 <= SIZE_MAX ->
  length mem_list = 20%nat -> length mem_list2 = 20%nat ->
  length stack = 20%nat ->
  test_main SIZE_MAX mem_list mem_list2 stack = Some (replicate 85 true).
Proof.
  intros Hsize H1 H2 H3. unfold test_main.
  destruct (ctor_spec (T := Z) 20 (Nat.lt_0_succ 19) mem_list H1)
    as (l & fs & -> & HR & _).
  destruct (ctor_init_spec (T := Z) 20 mem_list2 init_list 17 H2)
    as (l2 & us & fs2 & -> & HR2 & Hvals & _); [simpl; lia|].
  destruct (run_checks_model 20 SIZE_MAX Hsize (Nat.lt_0_succ 19)
              main_checks_list 0 _ _ _ HR) as (l' & Hrun1).
  destruct (run_checks_model 20 SIZE_MAX Hsize (Nat.lt_0_succ 19)
              main_checks_list2
              (model_checks 20 main_checks_list 0 []).2 _ _ _ HR2)
    as (l2' & Hrun2).
  rewrite Hvals in Hrun2.
  change (([] : list (nat * Z)).*2) with (@nil Z) in Hrun1.
  cbn [mbind option_bind]. rewrite Hrun1.
  cbn [fmap option_map option_fmap fst mbind option_bind]. rewrite Hrun2.
  cbn [fmap option_map option_fmap fst mbind option_bind].
  rewrite (check_iterators_conditions stack H3).
  by vm_compute.
Qed.

(** X10 on memory that holds zeroes, with a 64-bit [size_t]. *)
Lemma test_main_passes_witness :
  test_main SIZE_MAX_64 (storage 20) (storage 20) (storage 20) =
    Some (replicate 85 true).
Proof.
  apply (test_main_passes SIZE_MAX_64 (storage 20) (storage 20) (storage 20)
           (size_max_64_fits 20 (le_n 20)) eq_refl eq_refl eq_refl).
Defined.

(** * More properties on lists of [int] *)

(** X1 on the list that holds 1, 2, 1, 3. *)
Lemma inList_matches_iteration_witness :
  exists xs,
    iterate 5 dup5 (begin_ dup5) = Some xs /\
    inList 2 dup5 = Some (bool_decide (2 ∈ xs), dup5).
Proof.
  exact (inList_matches_iteration 5 dup5 _ _ 2 dup5_rep).
Defined.

(** X2 on the same list: [begin() += 2] reads the second 1, and
    [begin() += 4] is [end()]. *)
Lemma iter_walk_witness :
  (exists it,
     iter_add_assign dup5 2 (begin_ dup5) = Some it /\
     iter_deref dup5 it = Some 1 /\
     iter_pre_inc dup5 it = iter_add_assign dup5 3 (begin_ dup5)) /\
  iter_add_assign dup5 4 (begin_ dup5) = Some (end_ dup5).
Proof.
  split.
  - destruct (iter_walk 5 dup5 _ _ 2 dup5_rep) as (it & Hit & _ & _ & Hval).
    exists it. split; [exact Hit|].
    destruct (Hval 1 eq_refl) as (Hd & _ & Hp & _). by split.
  - destruct (iter_walk 5 dup5 _ _ 4 dup5_rep) as (it & Hit & _ & Hend & _).
    rewrite Hit. f_equal. apply Hend. simpl. lia.
Defined.

(** X3 on the same list: 9 stored over the 2. *)
Lemma iter_store_replaces_witness :
  exists it l',
    iter_add_assign dup5 1 (begin_ dup5) = Some it /\
    iter_store dup5 it 9 = Some l' /\
    used l' = used dup5 /\
    iterate 5 l' (begin_ l') = Some [1; 9; 1; 3].
Proof.
  destruct (iter_store_replaces 5 dup5 _ _ 1 9 dup5_rep)
    as (it & l' & us' & H1 & H2 & _ & _ & _ & H3 & H4); [simpl; lia|].
  by exists it, l'.
Defined.

(** X4: two values asked of an array of one. *)
Lemma ctor_init_short_array_witness :
  FixedLengthList_ctor_init 3 (storage 3) [12] 2 = None.
Proof.
  apply (ctor_init_short_array 3 (storage 3) [12] 2). simpl. lia.
Defined.

(** X5 on the values of the test program. *)
Lemma fifo_across_ends_witness :
  (exists l1 l2 fs',
     push_all SIZE_MAX_64 [22; 33; 44] list20 = Some ([true; true; true], l1) /\
     dequeue_n SIZE_MAX_64 3 0 l1 =
       Some ([(true, 22); (true, 33); (true, 44)], l2) /\
     Rep 20 l2 [] fs') /\
  (exists l1 l2 fs',
     queue_all SIZE_MAX_64 [22; 33; 44] list20 = Some ([true; true; true], l1) /\
     pop_n SIZE_MAX_64 3 0 l1 =
       Some ([(true, 22); (true, 33); (true, 44)], l2) /\
     Rep 20 l2 [] fs').
Proof.
  apply (fifo_across_ends 20 SIZE_MAX_64 (size_max_64_fits 20 (le_n 20))
           list20 free20 [22; 33; 44] 0 list20_rep).
  simpl. lia.
Defined.

(** X6 on the list that holds 1, 2, 1, 3. *)
Lemma remove_agrees_with_inList_witness :
  exists b l',
    inList 1 dup5 = Some (b, dup5) /\
    remove SIZE_MAX_64 1 dup5 = Some (b, l') /\
    used l' = used dup5 - (if b then 1 else 0) /\
    exists c, inList 3 dup5 = Some (c, dup5) /\ inList 3 l' = Some (c, l').
Proof.
  destruct (remove_agrees_with_inList (T := Z) 5 SIZE_MAX_64
              (size_max_64_fits 5 (Nat.le_add_l 5 15)) dup5 _ _ 1 dup5_rep)
    as (b & l' & H1 & H2 & H3 & H4).
  exists b, l'. split; [exact H1|]. split; [exact H2|]. split; [exact H3|].
  apply H4. discriminate.
Defined.

(** X7 on the same list. *)
Lemma calls_refine_witness :
  exists l',
    calls 5 SIZE_MAX_64
      [CallPush 7; CallQueue 8; CallDequeue; CallRemove 1; CallInList 1;
       CallUsed; CallPop; CallAvailable] 0 dup5 =
      Some ([(RetBool true, 0); (RetBool false, 0); (RetBool true, 3);
             (RetBool true, 3); (RetBool true, 3); (RetSize 3, 3);
             (RetBool true, 7); (RetSize 3, 7)], l') /\
    iterate 5 l' (begin_ l') = Some [2; 1].
Proof.
  destruct (calls_refine (T := Z) 5 SIZE_MAX_64
              (size_max_64_fits 5 (Nat.le_add_l 5 15)) (Nat.lt_0_succ 4)
              [CallPush 7; CallQueue 8; CallDequeue; CallRemove 1; CallInList 1;
               CallUsed; CallPop; CallAvailable] 0 dup5 _ _ dup5_rep)
    as (l' & us' & fs' & H1 & _ & _ & H2).
  exists l'. split; [exact H1|exact H2].
Defined.

(** X8 on new lists of 20 and of 3 slots. *)
Lemma calls_on_new_list_witness :
  (exists l0 l',
     FixedLengthList_ctor 20 (storage 20) = Some l0 /\
     calls 20 SIZE_MAX_64 [CallPush 1; CallQueue 2; CallUsed; CallPop] 0 l0 =
       Some ([(RetBool true, 0); (RetBool true, 0); (RetSize 2, 0);
              (RetBool true, 1)], l') /\
     iterate 20 l' (begin_ l') = Some [2]) /\
  (exists l0 l',
     FixedLengthList_ctor_init 3 (storage 3) [12; 23; 34; 45] 4 = Some l0 /\
     calls 3 SIZE_MAX_64 [CallQueue 56; CallDequeue; CallAvailable] 0 l0 =
       Some ([(RetBool false, 0); (RetBool true, 34); (RetSize 1, 34)], l') /\
     iterate 3 l' (begin_ l') = Some [12; 23]).
Proof.
  split.
  - destruct (calls_on_new_list (T := Z) 20 SIZE_MAX_64
                (size_max_64_fits 20 (le_n 20)) (Nat.lt_0_succ 19)
                (storage 20) [CallPush 1; CallQueue 2; CallUsed; CallPop] 0
                eq_refl) as [Hdefault _].
    exact Hdefault.
  - destruct (calls_on_new_list (T := Z) 3 SIZE_MAX_64
                (size_max_64_fits 3 (Nat.le_add_l 3 17)) (Nat.lt_0_succ 2)
                (storage 3) [CallQueue 56; CallDequeue; CallAvailable] 0
                eq_refl) as [_ Hinit].
    apply (Hinit [12; 23; 34; 45] 4%nat). simpl. lia.
Defined.

(** X9 on an object of three slots whose links and counter hold
    anything. *)
Lemma clear_resets_witness :
  exists l' fs,
    clear 3 (mkList (storage 3) (Some 7%nat) (Some 9%nat) None 42) =
      Some (tt, l') /\
    Rep 3 l' [] fs /\
    fs.*1 = [0; 1; 2]%nat /\
    used l' = 0 /\ available 3 SIZE_MAX_64 l' = 3 /\
    inList 0 l' = Some (false, l').
Proof.
  destruct (clear_resets (T := Z) 3 SIZE_MAX_64
              (size_max_64_fits 3 (Nat.le_add_l 3 17)) (Nat.lt_0_succ 2)
              (mkList (storage 3) (Some 7%nat) (Some 9%nat) None 42) 0 eq_refl)
    as (l' & fs & H1 & H2 & H3 & _ & H4 & H5 & _ & H6).
  by exists l', fs.
Defined.

(** X11 on the list that holds 1, 2, 1, 3: the two positions that hold 1
    are different iterators, and every position past the tail is
    [end()]. *)
Lemma iter_eq_same_position_witness :
  (exists a b,
     iter_add_assign dup5 0 (begin_ dup5) = Some a /\
     iter_add_assign dup5 2 (begin_ dup5) = Some b /\
     iter_eq a b = false /\ iter_ne a b = true) /\
  (exists a b,
     iter_add_assign dup5 4 (begin_ dup5) = Some a /\
     iter_add_assign dup5 9 (begin_ dup5) = Some b /\
     iter_eq a b = true /\ iter_ne a b = false).
Proof.
  split.
  - destruct (iter_eq_same_position 5 dup5 _ _ 0 2 dup5_rep)
      as (a & b & Ha & Hb & Heq & Hne).
    exists a, b. rewrite Hne, Heq. by repeat split.
  - destruct (iter_eq_same_position 5 dup5 _ _ 4 9 dup5_rep)
      as (a & b & Ha & Hb & Heq & Hne).
    exists a, b. rewrite Hne, Heq. by repeat split.
Defined.

(** X12 on new lists of 20 slots. *)
Lemma members_stay_consistent_witness :
  (exists l0 rs l',
     FixedLengthList_ctor 20 (storage 20) = Some l0 /\
     calls 20 SIZE_MAX_64
       [CallPush 1; CallQueue 2; CallRemove 1; CallDequeue; CallClear] 0 l0 =
       Some (rs, l') /\
     well_linked 20 l') /\
  (exists l0 rs l',
     FixedLengthList_ctor_init 20 (storage 20) init_list 17 = Some l0 /\
     calls 20 SIZE_MAX_64 [CallPop; CallDequeue; CallQueue 199] 0 l0 =
       Some (rs, l') /\
     well_linked 20 l').
Proof.
  split.
  - destruct (members_stay_consistent (T := Z) 20 SIZE_MAX_64
                (size_max_64_fits 20 (le_n 20)) (Nat.lt_0_succ 19)
                (storage 20)
                [CallPush 1; CallQueue 2; CallRemove 1; CallDequeue; CallClear]
                0 eq_refl) as [Hdefault _].
    exact Hdefault.
  - destruct (members_stay_consistent (T := Z) 20 SIZE_MAX_64
                (size_max_64_fits 20 (le_n 20)) (Nat.lt_0_succ 19)
                (storage 20) [CallPop; CallDequeue; CallQueue 199] 0 eq_refl)
      as [_ Hinit].
    apply (Hinit init_list 17%nat). simpl. lia.
Defined.
